(** * A shallow embedding of juju's change-log watcher (state/watcher/watcher.go)

    The single goroutine that owns the registry ([watches]), the two pending
    queues and the log cursor is modelled as explicit state passing over the
    record [Watcher].  Go's nondeterministic [select] statements are resolved
    by explicit schedules supplied by the caller: a list of loop events
    (timer, request, dying) for [Watcher.loop] and a list of flush actions
    (send succeeds, request arrives, dying) for [Watcher.flush].  A Go panic
    is an explicit failure outcome. *)

From Stdlib Require Import String ZArith List Bool Lia Permutation.
Import ListNotations.
Open Scope Z_scope.

(** ** Dynamic values and keys *)

(** The dynamic values ([interface{}]) found in changelog documents: Go's
    [==] on interfaces compares the dynamic type and the value. *)
Inductive value : Type :=
| VInt64 (z : Z)
| VStr (s : string)
| VOther (n : nat).

Definition value_eqb (a b : value) : bool :=
  match a, b with
  | VInt64 x, VInt64 y => Z.eqb x y
  | VStr x, VStr y => String.eqb x y
  | VOther x, VOther y => Nat.eqb x y
  | _, _ => false
  end.

(** An [interface{}] that may be [nil] ([None]). *)
Definition ident := option value.

Definition ident_eqb (a b : ident) : bool :=
  match a, b with
  | None, None => true
  | Some x, Some y => value_eqb x y
  | _, _ => false
  end.

(** [watchKey{c, id}]; [key_id = None] is a whole-collection key. *)
Record watchKey := mkKey { key_c : string; key_id : ident }.

Definition key_eqb (k1 k2 : watchKey) : bool :=
  String.eqb (key_c k1) (key_c k2) && ident_eqb (key_id k1) (key_id k2).

(** [watchKey.match]: [k] may be a collection key, [k1] a document key. *)
Definition key_match (k k1 : watchKey) : bool :=
  if negb (String.eqb (key_c k) (key_c k1)) then false
  else match key_id k with
       | None => true
       | Some _ => ident_eqb (key_id k) (key_id k1)
       end.

(** Channels ([chan<- Change]) are identified by a number. *)
Definition chan := nat.

(** [watchInfo{ch, revno, filter}]. *)
Record watchInfo := mkInfo {
  ch : chan;
  revno : Z;
  wfilter : option (ident -> bool)
}.

Definition set_revno (info : watchInfo) (r : Z) : watchInfo :=
  mkInfo (ch info) r (wfilter info).

(** [event{ch, key, revno}]; [ev_ch = None] is a purged event ([e.ch = nil]). *)
Record event := mkEvent { ev_ch : option chan; ev_key : watchKey; ev_revno : Z }.

(** [Change{C, Id, Revno}]. *)
Record Change := mkChange { C : string; Id : ident; Revno : Z }.

(** ** Errors (github.com/juju/errors) *)

(** Errors reported by the changelog iterator's [Close]. *)
Inductive iterErr : Type :=
| QueryError (code : Z) (msg : string)   (* [*mgo.QueryError] *)
| OtherError (msg : string).

Inductive goerr : Type :=
| ErrDying                          (* tomb.ErrDying *)
| ErrRestartAgent                   (* jworker.ErrRestartAgent *)
| CappedPositionLost                (* cappedPositionLostError *)
| ErrIter (e : iterErr)
| Annotate (msg : string) (e : goerr)  (* errors.Annotate *)
| Trace (e : goerr).                   (* errors.Trace *)

(** [errors.Cause]. *)
Fixpoint cause (e : goerr) : goerr :=
  match e with
  | Annotate _ e' => cause e'
  | Trace e' => cause e'
  | _ => e
  end.

(** [strings.Contains]. *)
Fixpoint contains (s sub : string) : bool :=
  if String.prefix sub s then true
  else match s with
       | EmptyString => false
       | String _ s' => contains s' sub
       end.

(** ** Watcher state *)

Definition registry := watchKey -> list watchInfo.

(** [w.watches[k] = v]. *)
Definition upd (m : registry) (k : watchKey) (v : list watchInfo) : registry :=
  fun k' => if key_eqb k k' then v else m k'.

Record Watcher := mkWatcher {
  watches : registry;
  needSync : bool;
  syncEvents : list event;
  requestEvents : list event;
  lastId : ident
}.

Definition set_watches (w : Watcher) (m : registry) : Watcher :=
  mkWatcher m (needSync w) (syncEvents w) (requestEvents w) (lastId w).
Definition set_needSync (w : Watcher) (b : bool) : Watcher :=
  mkWatcher (watches w) b (syncEvents w) (requestEvents w) (lastId w).
Definition set_lastId (w : Watcher) (i : ident) : Watcher :=
  mkWatcher (watches w) (needSync w) (syncEvents w) (requestEvents w) i.

(** ** The changelog as read by [sync] *)

(** A field value inside a collection sub-document ([item.Value]). *)
Inductive bfield : Type :=
| BArr (l : list ident)      (* []interface{} *)
| BVal (v : ident).

(** A collection's value in a log entry ([c.Value]). *)
Inductive cval : Type :=
| CDoc (items : list (string * bfield))   (* bson.D *)
| CVal (v : ident).

(** A changelog document: its [_id] followed by one element per collection. *)
Record entry := mkEntry { eid : ident; ecolls : list (string * cval) }.

(** An iterator over the log, newest entry first, and the result of [Close]. *)
Record iterator := mkIter { ientries : list entry; iclose : option iterErr }.

(** ** sync *)

(** [r[i].(int64)]. *)
Definition revno_of (v : ident) : option Z :=
  match v with
  | Some (VInt64 z) => Some z
  | _ => None
  end.

(** [if revno < 0 { revno = -1 }]. *)
Definition normalize (r : Z) : Z := if r <? 0 then -1 else r.

Definition coll_key (key : watchKey) : watchKey := mkKey (key_c key) None.

(** Whether a collection watch accepts document [d]. *)
Definition keep (info : watchInfo) (d : ident) : bool :=
  match wfilter info with
  | None => true
  | Some f => f d
  end.

(** Queue notifications for per-collection watches. *)
Fixpoint queue_coll (infos : list watchInfo) (key : watchKey) (r : Z) : list event :=
  match infos with
  | [] => []
  | info :: rest =>
      if keep info (key_id key)
      then mkEvent (Some (ch info)) key r :: queue_coll rest key r
      else queue_coll rest key r
  end.

(** [revno > info.revno || (revno < 0 && info.revno >= 0)]. *)
Definition doc_cond (r last : Z) : bool := (last <? r) || ((r <? 0) && (0 <=? last)).

(** Queue notifications for per-document watches, updating [infos[i].revno]
    in place; returns the updated slice and the queued events in order. *)
Fixpoint queue_doc (infos : list watchInfo) (key : watchKey) (r : Z)
  : list watchInfo * list event :=
  match infos with
  | [] => ([], [])
  | info :: rest =>
      let '(rest', evs) := queue_doc rest key r in
      if doc_cond r (revno info)
      then (set_revno info r :: rest', mkEvent (Some (ch info)) key r :: evs)
      else (info :: rest', evs)
  end.

(** The body of the innermost loop of [sync] once a candidate
    [(key, revno)] has been found. *)
Definition queue (w : Watcher) (key : watchKey) (r : Z) : Watcher :=
  let collEvs := queue_coll (watches w (coll_key key)) key r in
  let '(infos', docEvs) := queue_doc (watches w key) key r in
  mkWatcher (upd (watches w) key infos') (needSync w)
            (syncEvents w ++ collEvs ++ docEvs) (requestEvents w) (lastId w).

(** State of one sync pass: the watcher, the [seen] set and, as a ghost
    record for the specification only, the candidates processed so far. *)
Record pass := mkPass { pw : Watcher; seen : list watchKey; cands : list (watchKey * Z) }.

(** [for i := len(d) - 1; i >= 0; i--] over the rows [(d[i], r[i])],
    given in the order they are visited. *)
Fixpoint walk (name : string) (rows : list (ident * ident)) (p : pass) : pass :=
  match rows with
  | [] => p
  | (di, ri) :: rows' =>
      let key := mkKey name di in
      if existsb (key_eqb key) (seen p) then walk name rows' p
      else
        match revno_of ri with
        | None => walk name rows' (mkPass (pw p) (key :: seen p) (cands p))
        | Some r0 =>
            let r := normalize r0 in
            walk name rows'
              (mkPass (queue (pw p) key r) (key :: seen p) (cands p ++ [(key, r)]))
        end
  end.

Definition arr_of (v : bfield) : list ident :=
  match v with
  | BArr l => l
  | BVal _ => []
  end.

(** The [for _, item := range dr] loop extracting [d] and [r]. *)
Fixpoint parse_items (items : list (string * bfield)) (d r : list ident)
  : list ident * list ident :=
  match items with
  | [] => (d, r)
  | (n, v) :: rest =>
      if String.eqb n "d" then parse_items rest (arr_of v) r
      else if String.eqb n "r" then parse_items rest d (arr_of v)
      else parse_items rest d r
  end.

(** [dr, _ := c.Value.(bson.D)] and the extraction of [d] and [r]. *)
Definition parse_batch (cv : cval) : list ident * list ident :=
  parse_items (match cv with CDoc items => items | CVal _ => [] end) [] [].

(** One element [c] of [entry[1:]]: an invalid batch is logged and skipped. *)
Definition process_batch (p : pass) (b : string * cval) : pass :=
  let '(name, cv) := b in
  let '(d, r) := parse_batch cv in
  if Nat.eqb (length d) 0 || negb (Nat.eqb (length d) (length r)) then p
  else walk name (rev (combine d r)) p.

(** The [for iter.Next(&entry)] loop; [last0] is the cursor read at the
    start of the pass. *)
Fixpoint sync_entries (last0 : ident) (first : bool) (es : list entry) (p : pass) : pass :=
  match es with
  | [] => p
  | e :: es' =>
      let p1 := if first then mkPass (set_lastId (pw p) (eid e)) (seen p) (cands p) else p in
      if ident_eqb (eid e) last0 then p1
      else sync_entries last0 false es' (fold_left process_batch (ecolls e) p1)
  end.

Definition sync_pass (w : Watcher) (it : iterator) : pass :=
  sync_entries (lastId w) true (ientries it) (mkPass (set_needSync w false) [] []).

(** CappedPositionLost is code 136, or the message mentions it. *)
Definition is_capped (e : iterErr) : bool :=
  match e with
  | QueryError code msg => Z.eqb code 136 || contains msg "CappedPositionLost"
  | OtherError _ => false
  end.

Definition sync (w : Watcher) (it : iterator) : Watcher * option goerr :=
  (pw (sync_pass w it),
   match iclose it with
   | None => None
   | Some e =>
       Some (Annotate "watcher iteration error"
               (if is_capped e then CappedPositionLost else ErrIter e))
   end).

(** ** handle *)

Inductive req : Type :=
| ReqSync
| ReqWatch (key : watchKey) (info : watchInfo)
| ReqUnwatch (key : watchKey) (c : chan)
| ReqWatchMulti (collection : string) (ids : list ident) (watchCh : chan).

(** What the loop sends back on the request's completion channel. *)
Inductive reply : Type :=
| NoReply
| ReplyNil
| ReplyErr (c : chan) (key : watchKey).   (* "tried to re-add channel %v for %s" *)

Definition has_ch (c : chan) (info : watchInfo) : bool := Nat.eqb (ch info) c.

Fixpoint find_index {A} (p : A -> bool) (l : list A) : option nat :=
  match l with
  | [] => None
  | x :: l' => if p x then Some O else option_map S (find_index p l')
  end.

Fixpoint list_set {A} (l : list A) (i : nat) (x : A) : list A :=
  match l, i with
  | [], _ => []
  | _ :: l', O => x :: l'
  | y :: l', S i' => y :: list_set l' i' x
  end.

Definition dummy_info : watchInfo := mkInfo O 0 None.

(** [watches[i] = watches[len(watches)-1]; w.watches[r.key] = watches[:len(watches)-1]]. *)
Definition swap_remove (l : list watchInfo) (i : nat) : list watchInfo :=
  removelast (list_set l i (last l dummy_info)).

(** Purge queued events matching the removed key and channel ([e.ch = nil]). *)
Definition purge (key : watchKey) (c : chan) (evs : list event) : list event :=
  map (fun e =>
         if key_match key (ev_key e) &&
            match ev_ch e with Some c' => Nat.eqb c' c | None => false end
         then mkEvent None (ev_key e) (ev_revno e) else e) evs.

(** The first id whose key already has [wch] registered. *)
Fixpoint find_conflict (m : registry) (collection : string) (ids : list ident) (wch : chan)
  : option watchKey :=
  match ids with
  | [] => None
  | i :: ids' =>
      let key := mkKey collection i in
      if existsb (has_ch wch) (m key) then Some key
      else find_conflict m collection ids' wch
  end.

Fixpoint add_all (m : registry) (collection : string) (ids : list ident) (wch : chan) : registry :=
  match ids with
  | [] => m
  | i :: ids' =>
      let key := mkKey collection i in
      add_all (upd m key (m key ++ [mkInfo wch (-2) None])) collection ids' wch
  end.

(** [Watcher.handle]; [None] is a panic. *)
Definition handle (w : Watcher) (r : req) : option (Watcher * reply) :=
  match r with
  | ReqSync => Some (set_needSync w true, NoReply)
  | ReqWatch key info =>
      if existsb (has_ch (ch info)) (watches w key) then None
      else Some (set_watches w (upd (watches w) key (watches w key ++ [info])), ReplyNil)
  | ReqUnwatch key c =>
      match find_index (has_ch c) (watches w key) with
      | None => None
      | Some i =>
          Some (mkWatcher (upd (watches w) key (swap_remove (watches w key) i))
                          (needSync w)
                          (purge key c (syncEvents w))
                          (purge key c (requestEvents w))
                          (lastId w), NoReply)
      end
  | ReqWatchMulti collection ids wch =>
      match find_conflict (watches w) collection ids wch with
      | Some key => Some (w, ReplyErr wch key)
      | None => Some (set_watches w (add_all (watches w) collection ids wch), ReplyNil)
      end
  end.

Definition is_nil_id (i : ident) : bool :=
  match i with None => true | Some _ => false end.

(** The public [WatchMulti]: ids are checked for [nil] before the request
    is sent; [Some true] is a nil error, [Some false] an error. *)
Definition WatchMulti (w : Watcher) (collection : string) (ids : list ident) (c : chan)
  : option (Watcher * bool) :=
  if existsb is_nil_id ids
  then Some (w, false)
  else match handle w (ReqWatchMulti collection ids c) with
       | Some (w', ReplyNil) => Some (w', true)
       | Some (w', _) => Some (w', false)
       | None => None
       end.

(** ** flush *)

(** How a blocked [select] in [flush] is resolved. *)
Inductive fact : Type :=
| FSend            (* [e.ch <- change] *)
| FReq (r : req)   (* [req := <-w.request] *)
| FDie.            (* [<-w.tomb.Dying()] *)

(** Observable trace: changes sent and requests handled. *)
Inductive titem : Type :=
| TSend (c : chan) (chg : Change)
| THandled (r : req) (rep : reply).

Inductive fstatus := FOk | FDead | FPanic.

Record fres := mkFres { f_status : fstatus; f_w : Watcher; f_acts : list fact; f_trace : list titem }.

Inductive queueSel := QSync | QRequest.

Definition queue_of (q : queueSel) (w : Watcher) : list event :=
  match q with QSync => syncEvents w | QRequest => requestEvents w end.

Definition change_of (e : event) : Change :=
  mkChange (key_c (ev_key e)) (key_id (ev_key e)) (ev_revno e).

(** [e := &queue[i]] with [e.ch != nil]. *)
Definition pending (q : queueSel) (w : Watcher) (i : nat) : option (chan * Change) :=
  match nth_error (queue_of q w) i with
  | Some e => match ev_ch e with Some c => Some (c, change_of e) | None => None end
  | None => None
  end.

(** [for e.ch != nil { select ... }] for the event at index [i]; the
    schedule defaults to a successful send when it runs out. *)
Fixpoint deliver (q : queueSel) (i : nat) (w : Watcher) (acts : list fact) {struct acts} : fres :=
  match pending q w i with
  | None => mkFres FOk w acts []
  | Some (c, chg) =>
      match acts with
      | [] => mkFres FOk w [] [TSend c chg]
      | FSend :: acts' => mkFres FOk w acts' [TSend c chg]
      | FDie :: acts' => mkFres FDead w acts' []
      | FReq r :: acts' =>
          match handle w r with
          | None => mkFres FPanic w acts' []
          | Some (w', rep) =>
              let res := deliver q i w' acts' in
              mkFres (f_status res) (f_w res) (f_acts res) (THandled r rep :: f_trace res)
          end
      end
  end.

(** Run [g] after [res] when [res] finished normally, concatenating traces. *)
Definition fthen (res : fres) (g : Watcher -> list fact -> fres) : fres :=
  match f_status res with
  | FOk =>
      let res2 := g (f_w res) (f_acts res) in
      mkFres (f_status res2) (f_w res2) (f_acts res2) (f_trace res ++ f_trace res2)
  | _ => res
  end.

(** [for i := n - 1; i >= 0; i--] over the sync queue. *)
Fixpoint flush_sync (n : nat) (w : Watcher) (acts : list fact) : fres :=
  match n with
  | O => mkFres FOk w acts []
  | S k => fthen (deliver QSync k w acts) (flush_sync k)
  end.

(** [for i := 0; i < len(w.requestEvents); i++]; [fuel] bounds the loop. *)
Fixpoint flush_req (fuel i : nat) (w : Watcher) (acts : list fact) : fres :=
  match fuel with
  | O => mkFres FOk w acts []
  | S f =>
      if Nat.ltb i (length (requestEvents w))
      then fthen (deliver QRequest i w acts) (flush_req f (S i))
      else mkFres FOk w acts []
  end.

Definition clear_queues (w : Watcher) : Watcher :=
  mkWatcher (watches w) (needSync w) [] [] (lastId w).

Definition flush (w : Watcher) (acts : list fact) : fres :=
  fthen (fthen (flush_sync (length (syncEvents w)) w acts)
               (fun w1 acts1 => flush_req (length (requestEvents w1)) 0 w1 acts1))
        (fun w2 acts2 => mkFres FOk (clear_queues w2) acts2 []).

(** ** loop *)

(** How the [select] at the bottom of [Watcher.loop] is resolved. *)
Inductive lev : Type :=
| LTimer            (* [<-next] *)
| LReq (r : req)    (* [req := <-w.request] *)
| LDie.             (* [<-w.tomb.Dying()] *)

Inductive rstatus := RRunning | RStopped (e : goerr) | RPanicked.

Record rres := mkRres { r_status : rstatus; r_w : Watcher; r_trace : list titem }.

(** A log with nothing new, used when the supplied iterators run out. *)
Definition empty_iter : iterator := mkIter [] None.

Definition next_iter (its : list iterator) : iterator * list iterator :=
  match its with
  | [] => (empty_iter, [])
  | it :: its' => (it, its')
  end.

Definition is_capped_lost (e : goerr) : bool :=
  match e with CappedPositionLost => true | _ => false end.

(** Outcome of the [if w.needSync { ... }] block at the top of the loop. *)
Inductive top_out : Type :=
| TopStop (e : goerr) (w : Watcher)
| TopPanic (w : Watcher) (tr : list titem)
| TopGo (w : Watcher) (its : list iterator) (acts : list fact) (tr : list titem).

Definition loop_top (w : Watcher) (its : list iterator) (acts : list fact) : top_out :=
  if needSync w then
    let '(it, its') := next_iter its in
    match sync w it with
    | (w1, Some err) =>
        TopStop (if is_capped_lost (cause err) then ErrRestartAgent else Trace err) w1
    | (w1, None) =>
        let fr := flush w1 acts in
        match f_status fr with
        | FPanic => TopPanic (f_w fr) (f_trace fr)
        | _ => TopGo (f_w fr) its' (f_acts fr) (f_trace fr)
        end
    end
  else TopGo w its acts [].

Definition prepend (tr : list titem) (r : rres) : rres :=
  mkRres (r_status r) (r_w r) (tr ++ r_trace r).

(** [Watcher.loop] (after [initLastId]), one iteration per loop event; when
    the events run out the loop is left waiting in its [select]. *)
Fixpoint loop (evs : list lev) (w : Watcher) (its : list iterator) (acts : list fact) : rres :=
  match loop_top w its acts with
  | TopStop e w1 => mkRres (RStopped e) w1 []
  | TopPanic w1 tr => mkRres RPanicked w1 tr
  | TopGo w1 its1 acts1 tr =>
      prepend tr
        (match evs with
         | [] => mkRres RRunning w1 []
         | LDie :: _ => mkRres (RStopped (Trace ErrDying)) w1 []
         | LTimer :: evs' => loop evs' (set_needSync w1 true) its1 acts1
         | LReq r :: evs' =>
             match handle w1 r with
             | None => mkRres RPanicked w1 []
             | Some (w2, rep) =>
                 let fr := flush w2 acts1 in
                 match f_status fr with
                 | FPanic => mkRres RPanicked (f_w fr) (THandled r rep :: f_trace fr)
                 | _ => prepend (THandled r rep :: f_trace fr) (loop evs' (f_w fr) its1 (f_acts fr))
                 end
             end
         end)
  end.

(** [Wait]: the goroutine started by [newWatcher] hands [errors.Cause(err)]
    of the loop's error to the tomb; tomb.ErrDying leaves the reason set by
    [Kill(nil)], so [Wait] returns nil; any other cause becomes the reason. *)
Definition wait_result (e : goerr) : option goerr :=
  match cause e with
  | ErrDying => None
  | c => Some c
  end.

(** ** Observations *)

(** Whether an event is addressed to channel [c]. *)
Definition ev_has_ch (c : chan) (e : event) : bool :=
  match ev_ch e with Some c' => Nat.eqb c' c | None => false end.

(** Number of queued sync events addressed to [c]. *)
Definition sync_count (c : chan) (w : Watcher) : nat := length (filter (ev_has_ch c) (syncEvents w)).

(** The only registration using [c] is a collection watch on [coll] without a filter. *)
Definition only_collection_watch (coll : string) (c : chan) (w : Watcher) : Prop :=
  (exists info, filter (has_ch c) (watches w (mkKey coll None)) = [info] /\ wfilter info = None)
  /\ forall k, k <> mkKey coll None -> existsb (has_ch c) (watches w k) = false.

(** Number of candidates of a pass whose key is in collection [coll]. *)
Definition coll_cands (coll : string) (p : pass) : nat :=
  length (filter (fun kr => String.eqb (key_c (fst kr)) coll) (cands p)).

(** No batch of the log holds a nil document id. *)
Definition log_ids_ok (it : iterator) : Prop :=
  forall e b, In e (ientries it) -> In b (ecolls e) -> ~ In None (fst (parse_batch (snd b))).

(** No queued event for channel [c] has a key matched by [k]. *)
Definition purged (k : watchKey) (c : chan) (w : Watcher) : Prop :=
  forall e, In e (syncEvents w ++ requestEvents w) -> ev_ch e = Some c -> key_match k (ev_key e) = false.

(** The trace sends a change for a key matched by [k] to channel [c]. *)
Definition sends_to (k : watchKey) (c : chan) (tr : list titem) : Prop :=
  exists chg, In (TSend c chg) tr /\ key_match k (mkKey (C chg) (Id chg)) = true.

(** The trace records a successful [Unwatch] of [(k, c)]. *)
Definition unwatch_in (k : watchKey) (c : chan) (tr : list titem) : Prop :=
  exists rep, In (THandled (ReqUnwatch k c) rep) tr.

(** Nothing is sent for [(k, c)] after an [Unwatch] of [(k, c)] in the trace. *)
Definition clean_after (k : watchKey) (c : chan) (tr : list titem) : Prop :=
  forall tr1 rep tr2, tr = tr1 ++ THandled (ReqUnwatch k c) rep :: tr2 -> ~ sends_to k c tr2.

Definition flush_good (k : watchKey) (c : chan) (w : Watcher) (res : fres) : Prop :=
  ((purged k c w \/ unwatch_in k c (f_trace res)) -> purged k c (f_w res))
  /\ (purged k c w -> ~ sends_to k c (f_trace res))
  /\ clean_after k c (f_trace res).

(** A delta batch whose [d] and [r] sequences have different lengths. *)
Definition unequal_batch (b : string * cval) : bool :=
  let '(d, r) := parse_batch (snd b) in negb (Nat.eqb (length d) (length r)).

(** A log entry with its unequal batches removed. *)
Definition drop_unequal (e : entry) : entry :=
  mkEntry (eid e) (filter (fun b => negb (unequal_batch b)) (ecolls e)).

(** The revnos sent to channel [c] for key [k], in order. *)
Fixpoint sent_revnos (k : watchKey) (c : chan) (tr : list titem) : list Z :=
  match tr with
  | [] => []
  | TSend c' chg :: tr' =>
      if Nat.eqb c' c && key_eqb (mkKey (C chg) (Id chg)) k
      then Revno chg :: sent_revnos k c tr'
      else sent_revnos k c tr'
  | THandled _ _ :: tr' => sent_revnos k c tr'
  end.

(** Number of times [ids] names key [k] in [collection]. *)
Definition occurrences (collection : string) (ids : list ident) (k : watchKey) : nat :=
  length (filter (fun i => key_eqb (mkKey collection i) k) ids).

(** The sends a flush performs for a list of events, in list order. *)
Definition sends (evs : list event) : list titem :=
  flat_map (fun e => match ev_ch e with Some c => [TSend c (change_of e)] | None => [] end) evs.

(** The sends of a trace, in order. *)
Definition sent_items (tr : list titem) : list titem :=
  filter (fun t => match t with TSend _ _ => true | THandled _ _ => false end) tr.

(** [subseq l1 l2]: [l1] is [l2] with some elements left out. *)
Inductive subseq {A : Type} : list A -> list A -> Prop :=
| subseq_nil : subseq [] []
| subseq_drop x l1 l2 : subseq l1 l2 -> subseq l1 (x :: l2)
| subseq_keep x l1 l2 : subseq l1 l2 -> subseq (x :: l1) (x :: l2).

(** [e] is [e0], or [e0] with its channel set to nil by [Unwatch]. *)
Definition nulled (e0 e : event) : Prop :=
  e = e0 \/ e = mkEvent None (ev_key e0) (ev_revno e0).

(** The queues of [w] are those of [w0], some events nulled. *)
Definition nulled_from (w0 w : Watcher) : Prop :=
  Forall2 nulled (syncEvents w0) (syncEvents w) /\ Forall2 nulled (requestEvents w0) (requestEvents w).

(** Candidates of a pass are recorded once, and only for seen keys. *)
Definition cands_ok (p : pass) : Prop :=
  NoDup (map fst (cands p)) /\ forall k, In k (map fst (cands p)) -> In k (seen p).

(** ** Per-document delivery order *)

(** The channel a request names, if any. *)
Definition req_chan (r : req) : option chan :=
  match r with
  | ReqSync => None
  | ReqWatch _ info => Some (ch info)
  | ReqUnwatch _ c => Some c
  | ReqWatchMulti _ _ c => Some c
  end.

Definition names_ch (c : chan) (r : req) : bool :=
  match req_chan r with Some c' => Nat.eqb c' c | None => false end.

(** A request that registers [c] again on the document key [K] or on
    [K]'s collection key. *)
Definition rereg (K : watchKey) (c : chan) (r : req) : bool :=
  match r with
  | ReqWatch key info => Nat.eqb (ch info) c && (key_eqb key K || key_eqb key (coll_key K))
  | ReqWatchMulti coll ids c' =>
      Nat.eqb c' c
      && existsb (fun i => key_eqb (mkKey coll i) K || key_eqb (mkKey coll i) (coll_key K)) ids
  | _ => false
  end.

(** Loop events and flush actions that neither register [c] again on [K]
    (or its collection key) nor kill the watcher mid-flush. *)
Definition lev_ok (K : watchKey) (c : chan) (l : lev) : bool :=
  match l with LReq r => negb (rereg K c r) | _ => true end.

Definition fact_ok (K : watchKey) (c : chan) (a : fact) : bool :=
  match a with FSend => true | FReq r => negb (rereg K c r) | FDie => false end.

(** A queued event that would send a change for key [K] to [c]. *)
Definition sel (K : watchKey) (c : chan) (e : event) : bool :=
  ev_has_ch c e && key_eqb (ev_key e) K.

Definition evview (K : watchKey) (c : chan) (e : event) : option Z :=
  if sel K c e then Some (ev_revno e) else None.

Definition qview (K : watchKey) (c : chan) (l : list event) : list (option Z) :=
  map (evview K c) l.

Fixpoint somes (l : list (option Z)) : list Z :=
  match l with
  | [] => []
  | Some v :: l' => v :: somes l'
  | None :: l' => somes l'
  end.

Definition opt_list {A} (o : option A) : list A :=
  match o with Some x => [x] | None => [] end.

(** Revnos queued for [(K, c)], in queue order. *)
Definition pend (K : watchKey) (c : chan) (l : list event) : list Z := somes (qview K c l).

(** [c] is registered exactly once on document key [K], with
    [lastDeliveredRevno = last], and not on [K]'s collection key. *)
Definition reg_at (K : watchKey) (c : chan) (last : Z) (w : Watcher) : bool :=
  match filter (has_ch c) (watches w K) with
  | [info] => Z.eqb (revno info) last
  | _ => false
  end
  && match filter (has_ch c) (watches w (coll_key K)) with [] => true | _ => false end.

(** No event for [(K, c)] is queued. *)
Definition quiet (K : watchKey) (c : chan) (w : Watcher) : bool :=
  match pend K c (syncEvents w) ++ pend K c (requestEvents w) with [] => true | _ => false end.

(** [c] is registered neither on [K] nor on [K]'s collection key. *)
Definition gone (K : watchKey) (c : chan) (w : Watcher) : Prop :=
  filter (has_ch c) (watches w K) = [] /\ filter (has_ch c) (watches w (coll_key K)) = [].

(** [c] was unwatched from [K] and nothing is queued for [(K, c)]. *)
Definition silent (K : watchKey) (c : chan) (w : Watcher) : Prop :=
  gone K c w /\ quiet K c w = true.

(** A state between loop iterations: registered at [last] with nothing
    queued for [(K, c)], or silent. *)
Definition kstate (K : watchKey) (c : chan) (last : Z) (w : Watcher) : Prop :=
  (reg_at K c last w = true /\ quiet K c w = true) \/ silent K c w.

(** [c] is registered on [K] (once, not on the collection key) or on neither. *)
Definition tracked (K : watchKey) (c : chan) (w : Watcher) : Prop :=
  (exists lp, reg_at K c lp w = true) \/ gone K c w.

(** A step from [w] to [w'] that keeps the queue views of [(K, c)] and
    keeps [c] registered (or unregistered) as it was. *)
Definition kframe (K : watchKey) (c : chan) (w w' : Watcher) : Prop :=
  qview K c (syncEvents w') = qview K c (syncEvents w)
  /\ qview K c (requestEvents w') = qview K c (requestEvents w)
  /\ (forall lp, reg_at K c lp w = true -> reg_at K c lp w' = true)
  /\ (gone K c w -> gone K c w').

(** The next revno sent is newer, or a deletion after a present revision. *)
Definition revno_step (prev next : Z) : bool :=
  (prev <? next) || ((next =? -1) && (0 <=? prev)).

Fixpoint revno_chain (last : Z) (l : list Z) : bool :=
  match l with
  | [] => true
  | v :: l' => revno_step last v && revno_chain v l'
  end.

Definition is_prefix (a b : list Z) : Prop := exists s, a ++ s = b.

(** What a flush fragment does to the view of [(K, c)]: it consumes only
    allowed actions, does not die, and sends a prefix of [V] for [(K, c)];
    either it keeps the queue views and the registration, sending all of
    [V] when it finishes normally, or it ends silent after an [Unwatch]
    of [(K, c)]. *)
Definition fview_ok (K : watchKey) (c : chan) (w : Watcher) (r : fres) (V : list Z) : Prop :=
  forallb (fact_ok K c) (f_acts r) = true
  /\ f_status r <> FDead
  /\ is_prefix (sent_revnos K c (f_trace r)) V
  /\ ((kframe K c w (f_w r) /\ (f_status r = FOk -> sent_revnos K c (f_trace r) = V))
      \/ silent K c (f_w r)).

(** A flush fragment run from a silent state: it sends nothing for
    [(K, c)] and stays silent. *)
Definition sfrag (K : watchKey) (c : chan) (r : fres) : Prop :=
  forallb (fact_ok K c) (f_acts r) = true
  /\ f_status r <> FDead
  /\ sent_revnos K c (f_trace r) = []
  /\ silent K c (f_w r).

(** During a sync pass started from a state registered at [last] with
    nothing queued for [(K, c)]: [c] stays registered once on [K], and at
    most one event for [(K, c)] has been queued, only once [K] has been
    seen, advancing [lastDeliveredRevno] by one [revno_step]. *)
Definition sync_inv (K : watchKey) (c : chan) (last : Z) (p : pass) : Prop :=
  exists lp, reg_at K c lp (pw p) = true /\ pend K c (requestEvents (pw p)) = []
    /\ ((lp = last /\ pend K c (syncEvents (pw p)) = [])
        \/ (In K (seen p) /\ revno_step last lp = true /\ pend K c (syncEvents (pw p)) = [lp])).

(** Example inputs. *)
Definition empty_watcher : Watcher := mkWatcher (fun _ => []) false [] [] None.

Definition entry1 (eid0 : Z) (coll : string) (ids : list ident) (revs : list Z) : entry :=
  mkEntry (Some (VInt64 eid0))
    [(coll, CDoc [("d"%string, BArr ids); ("r"%string, BArr (map (fun z => Some (VInt64 z)) revs))])].

Definition log1 (eid0 : Z) (coll : string) (ids : list ident) (revs : list Z) : iterator :=
  mkIter [entry1 eid0 coll ids revs] None.

Definition m0 : ident := Some (VStr "m0"%string).
Definition m1 : ident := Some (VStr "m1"%string).
Definition kM0 : watchKey := mkKey "machines"%string m0.

(** A watcher with one collection watch on "machines" (channel 1). *)
Definition machines_watch : Watcher :=
  set_watches empty_watcher (upd (fun _ => []) (mkKey "machines"%string None) [mkInfo 1%nat 0 None]).

(** Two log entries, newest first: m1 changed to revno 2 after m0 changed to revno 1. *)
Definition two_entries : iterator :=
  mkIter [entry1 2 "machines"%string [m1] [2]; entry1 1 "machines"%string [m0] [1]] None.

(** The collection key of "machines". *)
Definition kMachines : watchKey := mkKey "machines"%string None.

(** A watcher after [Watch("machines", "m0", -2, 1)]: nothing queued yet. *)
Definition m0_watch : Watcher :=
  set_watches empty_watcher (upd (fun _ => []) kM0 [mkInfo 1%nat (-2) None]).

(** The log of [m0]: created at revno 3, removed (-5), created again at revno 7. *)
Definition m0_logs : list iterator :=
  [log1 1 "machines"%string [m0] [3]; log1 2 "machines"%string [m0] [-5];
   log1 3 "machines"%string [m0] [7]].

(** ** Public API, start-up and per-pass views *)

(** The request each public registration method sends; [None] is the
    method's own panic on a nil document id, raised before any request. *)
Definition Watch_req (collection : string) (id : ident) (c : chan) : option req :=
  match id with
  | None => None
  | Some _ => Some (ReqWatch (mkKey collection id) (mkInfo c (-2) None))
  end.

Definition WatchCollectionWithFilter_req (collection : string) (c : chan)
    (filter : option (ident -> bool)) : req :=
  ReqWatch (mkKey collection None) (mkInfo c 0 filter).

Definition WatchCollection_req (collection : string) (c : chan) : req :=
  WatchCollectionWithFilter_req collection c None.

Definition Unwatch_req (collection : string) (id : ident) (c : chan) : option req :=
  match id with
  | None => None
  | Some _ => Some (ReqUnwatch (mkKey collection id) c)
  end.

Definition UnwatchCollection_req (collection : string) (c : chan) : req :=
  ReqUnwatch (mkKey collection None) c.

Definition StartSync_req : req := ReqSync.

(** Outcome of [w.log.Find(nil).Sort("-$natural").One(&entry)]. *)
Inductive findResult : Type :=
| FoundEntry (id : ident)
| NotFound                  (* mgo.ErrNotFound: [entry.Id] stays nil *)
| FindErr (e : iterErr).

(** [initLastId]. *)
Definition initLastId (w : Watcher) (r : findResult) : Watcher * option goerr :=
  match r with
  | FoundEntry id => (set_lastId w id, None)
  | NotFound => (set_lastId w None, None)
  | FindErr e => (w, Some (Trace (ErrIter e)))
  end.

(** The start of [Watcher.loop]: [w.needSync = true], then [initLastId],
    then the [for] loop. *)
Definition loop_start (w : Watcher) (r : findResult) (evs : list lev) (its : list iterator)
    (acts : list fact) : rres :=
  match initLastId (set_needSync w true) r with
  | (w1, Some err) => mkRres (RStopped (Trace err)) w1 []
  | (w1, None) => loop evs w1 its acts
  end.

(** The queued sync events whose key is [K]. *)
Definition kevents (K : watchKey) (w : Watcher) : list event :=
  filter (fun e => key_eqb (ev_key e) K) (syncEvents w).

(** Two registrations on [m0] (channels 1 and 2) and three queued events. *)
Definition m0_two_watch : Watcher :=
  mkWatcher (upd (fun _ => []) kM0 [mkInfo 1%nat (-2) None; mkInfo 2%nat 3 None]) false
    [mkEvent (Some 1%nat) kM0 3; mkEvent (Some 2%nat) kM0 3;
     mkEvent (Some 1%nat) (mkKey "machines"%string m1) 2] [] None.

(** What a sync pass may change: it appends to the sync queue, and leaves
    the request queue and the channel and filter of every registration
    (so their number) as they were. *)
Definition sync_frame (w w' : Watcher) : Prop :=
  (exists l, syncEvents w' = syncEvents w ++ l) /\ requestEvents w' = requestEvents w /\
  forall k, map ch (watches w' k) = map ch (watches w k) /\
            map wfilter (watches w' k) = map wfilter (watches w k).

(** ** Basic facts *)

Lemma value_eqb_spec (a b : value) : value_eqb a b = true <-> a = b.
Proof.
  destruct a, b; simpl; split; intro H; try discriminate; try congruence.
  - apply Z.eqb_eq in H; subst; reflexivity.
  - inversion H; apply Z.eqb_refl.
  - apply String.eqb_eq in H; subst; reflexivity.
  - inversion H; apply String.eqb_refl.
  - apply Nat.eqb_eq in H; subst; reflexivity.
  - inversion H; apply Nat.eqb_refl.
Qed.

Lemma ident_eqb_spec (a b : ident) : ident_eqb a b = true <-> a = b.
Proof.
  destruct a as [x|], b as [y|]; simpl; split; intro H; try discriminate; try congruence.
  - apply value_eqb_spec in H; subst; reflexivity.
  - inversion H; apply value_eqb_spec; reflexivity.
Qed.

Lemma key_eqb_spec (k1 k2 : watchKey) : key_eqb k1 k2 = true <-> k1 = k2.
Proof.
  destruct k1 as [c1 i1], k2 as [c2 i2]; unfold key_eqb; simpl.
  rewrite andb_true_iff, String.eqb_eq, ident_eqb_spec.
  split; [intros [-> ->]; reflexivity | intro H; inversion H; auto].
Qed.

Lemma key_eqb_refl (k : watchKey) : key_eqb k k = true.
Proof. apply key_eqb_spec; reflexivity. Qed.

Lemma key_eqb_false (k1 k2 : watchKey) : key_eqb k1 k2 = false <-> k1 <> k2.
Proof.
  rewrite <- key_eqb_spec. destruct (key_eqb k1 k2); split; congruence.
Qed.

Lemma upd_same (m : registry) k v : upd m k v k = v.
Proof. unfold upd; rewrite key_eqb_refl; reflexivity. Qed.

Lemma upd_other (m : registry) k k' v : k <> k' -> upd m k v k' = m k'.
Proof. intro H; unfold upd; apply key_eqb_false in H; rewrite H; reflexivity. Qed.

Lemma queue_doc_eq (l : list watchInfo) key r :
  queue_doc l key r =
  (map (fun info => if doc_cond r (revno info) then set_revno info r else info) l,
   map (fun info => mkEvent (Some (ch info)) key r)
       (filter (fun info => doc_cond r (revno info)) l)).
Proof.
  induction l as [|info l IH]; simpl; [reflexivity|].
  rewrite IH; destruct (doc_cond r (revno info)); reflexivity.
Qed.

Lemma queue_coll_eq (l : list watchInfo) key r :
  queue_coll l key r =
  map (fun info => mkEvent (Some (ch info)) key r) (filter (fun info => keep info (key_id key)) l).
Proof.
  induction l as [|info l IH]; simpl; [reflexivity|].
  rewrite IH; destruct (keep info (key_id key)); reflexivity.
Qed.

Lemma find_conflict_none (m : registry) coll ids c :
  find_conflict m coll ids c = None <->
  (forall i, In i ids -> existsb (has_ch c) (m (mkKey coll i)) = false).
Proof.
  induction ids as [|i ids IH]; simpl.
  - split; [intros _ i []|reflexivity].
  - destruct (existsb (has_ch c) (m (mkKey coll i))) eqn:E.
    + split; [discriminate|]. intro H. rewrite (H i (or_introl eq_refl)) in E. discriminate.
    + rewrite IH. split.
      * intros H j [<-|Hj]; auto.
      * intros H j Hj; auto.
Qed.

Lemma add_all_eq (m : registry) coll ids c k :
  add_all m coll ids c k = m k ++ repeat (mkInfo c (-2) None) (occurrences coll ids k).
Proof.
  revert m; induction ids as [|i ids IH]; intro m; simpl.
  - rewrite app_nil_r; reflexivity.
  - rewrite IH. unfold occurrences; simpl.
    destruct (key_eqb (mkKey coll i) k) eqn:E.
    + apply key_eqb_spec in E; subst k. rewrite upd_same, <- app_assoc. reflexivity.
    + apply key_eqb_false in E. rewrite upd_other by exact E. reflexivity.
Qed.

Lemma existsb_nil_id (ids : list ident) :
  existsb is_nil_id ids = true <-> In None ids.
Proof.
  rewrite existsb_exists. split.
  - intros [[x|] [H1 H2]]; [discriminate | exact H1].
  - intro H; exists None; auto.
Qed.

Lemma watchmulti_rejects (w : Watcher) collection ids c :
  (In None ids \/ exists i, In i ids /\ existsb (has_ch c) (watches w (mkKey collection i)) = true) ->
  WatchMulti w collection ids c = Some (w, false).
Proof.
  intro H. unfold WatchMulti.
  destruct (existsb is_nil_id ids) eqn:En; [reflexivity|].
  destruct H as [H|[i [Hi Hc]]].
  - apply existsb_nil_id in H. congruence.
  - simpl. destruct (find_conflict (watches w) collection ids c) eqn:Ef; [reflexivity|].
    rewrite (proj1 (find_conflict_none _ _ _ _) Ef i Hi) in Hc. discriminate.
Qed.

Lemma watchmulti_accepts (w : Watcher) collection ids c :
  ~ In None ids ->
  (forall i, In i ids -> existsb (has_ch c) (watches w (mkKey collection i)) = false) ->
  WatchMulti w collection ids c = Some (set_watches w (add_all (watches w) collection ids c), true).
Proof.
  intros Hn Hc. unfold WatchMulti.
  destruct (existsb is_nil_id ids) eqn:En.
  - apply existsb_nil_id in En; contradiction.
  - simpl. apply find_conflict_none in Hc. rewrite Hc. reflexivity.
Qed.

Lemma watchmulti_success_inv (w w1 : Watcher) collection ids c :
  WatchMulti w collection ids c = Some (w1, true) ->
  ~ In None ids /\ w1 = set_watches w (add_all (watches w) collection ids c).
Proof.
  unfold WatchMulti. destruct (existsb is_nil_id ids) eqn:En; [congruence|].
  intro H. split; [intro Hn; apply existsb_nil_id in Hn; congruence|].
  simpl in H. destruct (find_conflict (watches w) collection ids c); congruence.
Qed.

(** ** Claims *)

(** C5: [WatchMulti] is atomic.  When an id is [nil] or the channel is
    already registered against one of the ids, the call fails and the
    watcher is returned unchanged; otherwise the channel is registered
    against every [(collection, id)] of [ids] (as many times as the id
    occurs) and nothing else changes.  In particular a second call for the
    same channel whose ids overlap those of a successful first call fails
    and leaves the registry as the first call left it. *)
Theorem watchmulti_atomic (w : Watcher) (collection : string) (ids : list ident) (c : chan) :
  ((In None ids \/ exists i, In i ids /\ existsb (has_ch c) (watches w (mkKey collection i)) = true) ->
   WatchMulti w collection ids c = Some (w, false))
  /\ (~ In None ids ->
      (forall i, In i ids -> existsb (has_ch c) (watches w (mkKey collection i)) = false) ->
      exists w', WatchMulti w collection ids c = Some (w', true)
        /\ needSync w' = needSync w /\ syncEvents w' = syncEvents w
        /\ requestEvents w' = requestEvents w /\ lastId w' = lastId w
        /\ forall k, watches w' k =
                     watches w k ++ repeat (mkInfo c (-2) None) (occurrences collection ids k))
  /\ (forall ids1 w1, WatchMulti w collection ids1 c = Some (w1, true) ->
      (exists i, In i ids1 /\ In i ids) ->
      WatchMulti w1 collection ids c = Some (w1, false)).
Proof.
  split; [|split].
  - apply watchmulti_rejects.
  - intros Hn Hc. exists (set_watches w (add_all (watches w) collection ids c)).
    split; [apply watchmulti_accepts; assumption|].
    repeat split. intro k. apply add_all_eq.
  - intros ids1 w1 H1 [i [Hi1 Hi]].
    destruct (watchmulti_success_inv _ _ _ _ _ H1) as [Hn ->].
    apply watchmulti_rejects. right. exists i. split; [exact Hi|].
    simpl. rewrite add_all_eq. apply existsb_exists.
    exists (mkInfo c (-2) None). split; [|apply Nat.eqb_refl].
    apply in_or_app. right.
    assert (Hocc : (occurrences collection ids1 (mkKey collection i) > 0)%nat).
    { unfold occurrences. destruct (filter _ ids1) eqn:Ef; [|simpl; lia].
      assert (Hin : In i (filter (fun j => key_eqb (mkKey collection j) (mkKey collection i)) ids1)).
      { apply filter_In. split; [exact Hi1 | apply key_eqb_refl]. }
      rewrite Ef in Hin. destruct Hin. }
    destruct (occurrences collection ids1 (mkKey collection i)); [lia | left; reflexivity].
Qed.

Lemma watchmulti_atomic_witness :
  (exists w', WatchMulti empty_watcher "machines"%string [m0] 1%nat = Some (w', true))
  /\ (exists w1, WatchMulti empty_watcher "machines"%string [m0; m1] 1%nat = Some (w1, true)
      /\ WatchMulti w1 "machines"%string [m1] 1%nat = Some (w1, false)).
Proof.
  split.
  - destruct (proj1 (proj2 (watchmulti_atomic empty_watcher "machines"%string [m0] 1%nat))
      ltac:(simpl; intros [H|[]]; discriminate)
      ltac:(intros i _; reflexivity)) as [w' [Hw' _]].
    exists w'. exact Hw'.
  - exists (set_watches empty_watcher (add_all (watches empty_watcher) "machines"%string [m0; m1] 1%nat)).
    split; [reflexivity|].
    apply (proj2 (proj2 (watchmulti_atomic empty_watcher "machines"%string [m1] 1%nat)) [m0; m1]).
    + reflexivity.
    + exists m1. simpl. auto.
Defined.

(** C10: [WatchMulti] only checks the ids against registrations that
    existed before the call: with the same id twice in [ids] and the
    channel not yet registered for it, the call succeeds and appends two
    entries for the same [(key, channel)] pair, a state that a [Watch]
    request for that pair refuses by panicking. *)
Theorem watchmulti_duplicate_ids (w : Watcher) (collection : string) (i : ident) (c : chan) :
  i <> None ->
  existsb (has_ch c) (watches w (mkKey collection i)) = false ->
  exists w', WatchMulti w collection [i; i] c = Some (w', true)
    /\ watches w' (mkKey collection i)
       = watches w (mkKey collection i) ++ [mkInfo c (-2) None; mkInfo c (-2) None]
    /\ length (filter (has_ch c) (watches w' (mkKey collection i))) = 2%nat
    /\ handle w' (ReqWatch (mkKey collection i) (mkInfo c (-2) None)) = None.
Proof.
  intros Hi Hc.
  exists (set_watches w (add_all (watches w) collection [i; i] c)).
  assert (Hw : watches (set_watches w (add_all (watches w) collection [i; i] c)) (mkKey collection i)
               = watches w (mkKey collection i) ++ [mkInfo c (-2) None; mkInfo c (-2) None]).
  { unfold set_watches; cbn [watches]. rewrite add_all_eq. unfold occurrences.
    cbn [filter length repeat]. rewrite key_eqb_refl. reflexivity. }
  split; [|split; [exact Hw|split]].
  - apply watchmulti_accepts.
    + simpl. intros [H|[H|[]]]; congruence.
    + intros j [<-|[<-|[]]]; exact Hc.
  - rewrite Hw, filter_app. cbn [filter]. unfold has_ch at 2 3; cbn [ch]. rewrite Nat.eqb_refl.
    assert (Hf : filter (has_ch c) (watches w (mkKey collection i)) = []).
    { destruct (filter (has_ch c) (watches w (mkKey collection i))) as [|x l] eqn:Ef; [reflexivity|].
      assert (Hx : In x (filter (has_ch c) (watches w (mkKey collection i)))) by (rewrite Ef; left; reflexivity).
      apply filter_In in Hx. destruct Hx as [Hx1 Hx2].
      assert (existsb (has_ch c) (watches w (mkKey collection i)) = true)
        by (apply existsb_exists; exists x; auto).
      congruence. }
    rewrite Hf. reflexivity.
  - unfold handle. cbn [ch]. rewrite Hw, existsb_app. cbn [existsb]. unfold has_ch at 2; cbn [ch].
    rewrite Nat.eqb_refl, orb_true_r. reflexivity.
Qed.

Lemma watchmulti_duplicate_ids_witness :
  Some (VStr "m0"%string) <> None
  /\ existsb (has_ch 1%nat) (watches empty_watcher (mkKey "machines"%string m0)) = false
  /\ exists w', WatchMulti empty_watcher "machines"%string [m0; m0] 1%nat = Some (w', true)
    /\ length (filter (has_ch 1%nat) (watches w' (mkKey "machines"%string m0))) = 2%nat.
Proof.
  split; [discriminate|split; [reflexivity|]].
  destruct (watchmulti_duplicate_ids empty_watcher "machines"%string m0 1%nat
              ltac:(discriminate) ltac:(reflexivity)) as [w' [H1 [_ [H3 _]]]].
  exists w'. split; assumption.
Defined.

(** C9: when closing the log iterator reports an error at a sync, the loop
    stops.  For the position-lost condition (a [*mgo.QueryError] with code
    136 or whose message mentions CappedPositionLost) [Wait] returns the
    restart-the-agent error; for any other iteration error [Wait] returns
    that iteration error itself. *)
Theorem sync_failure_stops_loop (evs : list lev) (w : Watcher) (it : iterator)
    (its : list iterator) (acts : list fact) (e : iterErr) :
  needSync w = true -> iclose it = Some e ->
  (exists err w1, loop evs w (it :: its) acts = mkRres (RStopped err) w1 []
     /\ wait_result err = Some (if is_capped e then ErrRestartAgent else ErrIter e))
  /\ (is_capped e = true <->
      exists code msg, e = QueryError code msg
        /\ (code = 136 \/ contains msg "CappedPositionLost"%string = true)).
Proof.
  intros Hn Hc. split.
  - assert (Htop : loop_top w (it :: its) acts =
                   TopStop (if is_capped e then ErrRestartAgent
                            else Trace (Annotate "watcher iteration error" (ErrIter e)))
                           (pw (sync_pass w it))).
    { unfold loop_top. rewrite Hn. cbn [next_iter]. unfold sync. rewrite Hc.
      destruct (is_capped e); reflexivity. }
    exists (if is_capped e then ErrRestartAgent
            else Trace (Annotate "watcher iteration error" (ErrIter e))).
    exists (pw (sync_pass w it)).
    split.
    + destruct evs; cbn [loop]; rewrite Htop; reflexivity.
    + destruct (is_capped e); reflexivity.
  - destruct e as [code msg|msg]; cbn [is_capped].
    + rewrite orb_true_iff, Z.eqb_eq. split.
      * intro H; exists code, msg; auto.
      * intros [c0 [m [H H']]]; inversion H; subst; exact H'.
    + split; [discriminate|]. intros [c0 [m [H _]]]; discriminate.
Qed.

Lemma sync_failure_stops_loop_witness :
  exists err w1,
    loop [] (set_needSync empty_watcher true) [mkIter [] (Some (QueryError 136 "overflow"))] []
      = mkRres (RStopped err) w1 [] /\ wait_result err = Some ErrRestartAgent.
Proof.
  destruct (proj1 (sync_failure_stops_loop [] (set_needSync empty_watcher true)
                     (mkIter [] (Some (QueryError 136 "overflow"))) [] [] (QueryError 136 "overflow")
                     eq_refl eq_refl)) as [err [w1 [H1 H2]]].
  exists err, w1. split; [exact H1|]. rewrite H2. reflexivity.
Defined.

Lemma sends_app l1 l2 : sends (l1 ++ l2) = sends l1 ++ sends l2.
Proof. apply flat_map_app. Qed.

Lemma firstn_S_nth_error {A} (l : list A) k e :
  nth_error l k = Some e -> firstn (S k) l = firstn k l ++ [e].
Proof.
  revert k; induction l as [|x l IH]; intros [|k] H; simpl in *; try discriminate.
  - inversion H; reflexivity.
  - rewrite (IH k H). reflexivity.
Qed.

Lemma firstn_S_opt {A} (l : list A) (n : nat) :
  firstn (S n) l = firstn n l ++ opt_list (nth_error l n).
Proof.
  destruct (nth_error l n) as [e|] eqn:He.
  - apply firstn_S_nth_error. exact He.
  - apply nth_error_None in He. rewrite !firstn_all2 by lia. rewrite app_nil_r. reflexivity.
Qed.

Lemma skipn_nth_error {A} (l : list A) k e :
  nth_error l k = Some e -> skipn k l = e :: skipn (S k) l.
Proof.
  revert k; induction l as [|x l IH]; intros [|k] H; simpl in *; try discriminate.
  - inversion H; reflexivity.
  - apply IH; exact H.
Qed.

Lemma deliver_send_only q i w acts e :
  Forall (eq FSend) acts -> nth_error (queue_of q w) i = Some e ->
  exists acts', deliver q i w acts = mkFres FOk w acts' (sends [e]) /\ Forall (eq FSend) acts'.
Proof.
  intros Ha He. destruct acts as [|a acts].
  - exists []. split; [|constructor]. simpl. unfold pending. rewrite He.
    destruct (ev_ch e); reflexivity.
  - inversion Ha; subst. exists (if ev_ch e then acts else FSend :: acts).
    simpl. unfold pending. rewrite He. destruct (ev_ch e); split; auto.
Qed.

Lemma fthen_ok w acts tr g :
  fthen (mkFres FOk w acts tr) g =
  mkFres (f_status (g w acts)) (f_w (g w acts)) (f_acts (g w acts)) (tr ++ f_trace (g w acts)).
Proof. reflexivity. Qed.

Lemma flush_sync_send_only n w acts :
  (n <= length (syncEvents w))%nat -> Forall (eq FSend) acts ->
  exists acts', flush_sync n w acts = mkFres FOk w acts' (sends (rev (firstn n (syncEvents w))))
                /\ Forall (eq FSend) acts'.
Proof.
  revert acts; induction n as [|k IH]; intros acts Hn Ha.
  - exists acts. split; [reflexivity | exact Ha].
  - destruct (nth_error (syncEvents w) k) as [e|] eqn:He;
      [|apply nth_error_None in He; lia].
    destruct (deliver_send_only QSync k w acts e Ha He) as [a1 [Hd Ha1]].
    destruct (IH a1 ltac:(lia) Ha1) as [a2 [Hs Ha2]].
    exists a2. split; [|exact Ha2].
    cbn [flush_sync]. rewrite Hd, fthen_ok, Hs. cbn [f_status f_w f_acts f_trace].
    rewrite (firstn_S_nth_error _ _ _ He), rev_app_distr, sends_app. reflexivity.
Qed.

Lemma flush_req_send_only fuel i w acts :
  (i + fuel = length (requestEvents w))%nat -> Forall (eq FSend) acts ->
  exists acts', flush_req fuel i w acts = mkFres FOk w acts' (sends (skipn i (requestEvents w)))
                /\ Forall (eq FSend) acts'.
Proof.
  revert i acts; induction fuel as [|f IH]; intros i acts Hn Ha.
  - exists acts. split; [|exact Ha]. rewrite Nat.add_0_r in Hn. subst i.
    rewrite skipn_all. reflexivity.
  - destruct (nth_error (requestEvents w) i) as [e|] eqn:He;
      [|apply nth_error_None in He; lia].
    destruct (deliver_send_only QRequest i w acts e Ha He) as [a1 [Hd Ha1]].
    destruct (IH (S i) a1 ltac:(lia) Ha1) as [a2 [Hs Ha2]].
    exists a2. split; [|exact Ha2].
    cbn [flush_req]. replace (Nat.ltb i (length (requestEvents w))) with true
      by (symmetry; apply Nat.ltb_lt; lia).
    rewrite Hd, fthen_ok, Hs. cbn [f_status f_w f_acts f_trace].
    rewrite (skipn_nth_error _ _ _ He). change (e :: skipn (S i) (requestEvents w))
      with ([e] ++ skipn (S i) (requestEvents w)). rewrite sends_app. reflexivity.
Qed.

Lemma flush_send_only w acts :
  Forall (eq FSend) acts ->
  exists acts', flush w acts =
    mkFres FOk (clear_queues w) acts' (sends (rev (syncEvents w)) ++ sends (requestEvents w)).
Proof.
  intro Ha.
  destruct (flush_sync_send_only (length (syncEvents w)) w acts (le_n _) Ha) as [a1 [H1 Ha1]].
  destruct (flush_req_send_only (length (requestEvents w)) 0 w a1 eq_refl Ha1) as [a2 [H2 _]].
  exists a2. unfold flush. rewrite H1, fthen_ok, H2, fthen_ok.
  cbn [f_status f_w f_acts f_trace]. rewrite firstn_all, app_nil_r. reflexivity.
Qed.

Lemma subseq_nil_l {A} (l : list A) : subseq [] l.
Proof. induction l as [|x l IH]; constructor; exact IH. Qed.

Lemma subseq_refl {A} (l : list A) : subseq l l.
Proof. induction l as [|x l IH]; constructor; exact IH. Qed.

Lemma subseq_app {A} (a b c d : list A) : subseq a b -> subseq c d -> subseq (a ++ c) (b ++ d).
Proof.
  intros H1 H2. induction H1; cbn [app]; [exact H2|apply subseq_drop|apply subseq_keep]; assumption.
Qed.

Lemma subseq_app_r {A} (a b d : list A) : subseq a b -> subseq a (b ++ d).
Proof. intro H. rewrite <- (app_nil_r a). apply subseq_app; [exact H|apply subseq_nil_l]. Qed.

Lemma sent_items_app tr1 tr2 : sent_items (tr1 ++ tr2) = sent_items tr1 ++ sent_items tr2.
Proof. apply filter_app. Qed.

Lemma skipn_opt {A} (l : list A) (n : nat) :
  skipn n l = opt_list (nth_error l n) ++ skipn (S n) l.
Proof.
  destruct (nth_error l n) as [e|] eqn:He.
  - apply skipn_nth_error. exact He.
  - apply nth_error_None in He. rewrite !skipn_all2 by lia. reflexivity.
Qed.

Lemma forall2_nth {A B} (R : A -> B -> Prop) (l0 : list A) (l : list B) i y :
  Forall2 R l0 l -> nth_error l i = Some y -> exists x, nth_error l0 i = Some x /\ R x y.
Proof.
  intro H. revert i. induction H as [|x y' l0 l Hxy H IH]; intros [|i] Hi; cbn in Hi; try discriminate.
  - inversion Hi; subst. exists x. split; [reflexivity|exact Hxy].
  - apply IH. exact Hi.
Qed.

Lemma nulled_refl (l : list event) : Forall2 nulled l l.
Proof. induction l; constructor; [left; reflexivity|assumption]. Qed.

Lemma nulled_purge (k : watchKey) (c : chan) (l0 l : list event) :
  Forall2 nulled l0 l -> Forall2 nulled l0 (purge k c l).
Proof.
  induction 1 as [|x y l0 l Hxy H IH]; cbn [purge map]; constructor; [|exact IH].
  unfold nulled in *. destruct Hxy as [-> | ->]; destruct (_ && _); cbn [ev_key ev_revno]; auto.
Qed.

Lemma handle_nulled (w0 w w' : Watcher) (r : req) (rep : reply) :
  handle w r = Some (w', rep) -> nulled_from w0 w -> nulled_from w0 w'.
Proof.
  intros Hh [H1 H2].
  destruct r as [|key info|key c'|coll ids wch]; cbn [handle] in Hh.
  - inversion Hh; subst. split; assumption.
  - destruct existsb; [discriminate|]. inversion Hh; subst. split; assumption.
  - destruct find_index; [|discriminate]. inversion Hh; subst.
    split; apply nulled_purge; assumption.
  - destruct find_conflict; inversion Hh; subst; split; assumption.
Qed.

Lemma pending_sub (w0 w : Watcher) (q : queueSel) (i : nat) (c : chan) (chg : Change) :
  nulled_from w0 w -> pending q w i = Some (c, chg) ->
  sends (opt_list (nth_error (queue_of q w0) i)) = [TSend c chg].
Proof.
  intros [H1 H2] Hp. unfold pending in Hp.
  destruct (nth_error (queue_of q w) i) as [e|] eqn:He; [|discriminate].
  assert (Hq : Forall2 nulled (queue_of q w0) (queue_of q w)) by (destruct q; assumption).
  destruct (forall2_nth _ _ _ _ _ Hq He) as [e0 [He0 [Hn|Hn]]]; subst e; [|discriminate].
  rewrite He0. cbn [opt_list sends flat_map]. destruct (ev_ch e0); [|discriminate].
  inversion Hp; subst. reflexivity.
Qed.

Lemma deliver_sub (w0 : Watcher) (q : queueSel) (i : nat) (w : Watcher) (acts : list fact) :
  nulled_from w0 w ->
  subseq (sent_items (f_trace (deliver q i w acts))) (sends (opt_list (nth_error (queue_of q w0) i)))
  /\ nulled_from w0 (f_w (deliver q i w acts)).
Proof.
  revert w; induction acts as [|a acts IH]; intros w Hw; cbn [deliver];
    destruct (pending q w i) as [[c chg]|] eqn:Ep;
    try (split; [apply subseq_nil_l|exact Hw]).
  - rewrite (pending_sub w0 w q i c chg Hw Ep). split; [apply subseq_refl|exact Hw].
  - destruct a as [|r|].
    + rewrite (pending_sub w0 w q i c chg Hw Ep). split; [apply subseq_refl|exact Hw].
    + destruct (handle w r) as [[w' rep]|] eqn:Eh; [|split; [apply subseq_nil_l|exact Hw]].
      exact (IH w' (handle_nulled w0 w w' r rep Eh Hw)).
    + split; [apply subseq_nil_l|exact Hw].
Qed.

Lemma fthen_sub (w0 : Watcher) (r : fres) (g : Watcher -> list fact -> fres) (A B : list titem) :
  subseq (sent_items (f_trace r)) A /\ nulled_from w0 (f_w r) ->
  (forall w' a', nulled_from w0 w' ->
     subseq (sent_items (f_trace (g w' a'))) B /\ nulled_from w0 (f_w (g w' a'))) ->
  subseq (sent_items (f_trace (fthen r g))) (A ++ B) /\ nulled_from w0 (f_w (fthen r g)).
Proof.
  intros [H1 H2] Hg. unfold fthen. destruct (f_status r).
  - destruct (Hg (f_w r) (f_acts r) H2) as [G1 G2]. cbn [f_trace f_w].
    rewrite sent_items_app. split; [apply subseq_app; assumption|exact G2].
  - split; [apply subseq_app_r; exact H1|exact H2].
  - split; [apply subseq_app_r; exact H1|exact H2].
Qed.

Lemma flush_sync_sub (w0 : Watcher) (n : nat) (w : Watcher) (acts : list fact) :
  nulled_from w0 w ->
  subseq (sent_items (f_trace (flush_sync n w acts))) (sends (rev (firstn n (syncEvents w0))))
  /\ nulled_from w0 (f_w (flush_sync n w acts)).
Proof.
  revert w acts; induction n as [|k IH]; intros w acts Hw; cbn [flush_sync].
  - split; [apply subseq_nil_l|exact Hw].
  - rewrite firstn_S_opt, rev_app_distr, sends_app.
    replace (rev (opt_list (nth_error (syncEvents w0) k))) with (opt_list (nth_error (syncEvents w0) k))
      by (destruct (nth_error (syncEvents w0) k); reflexivity).
    apply fthen_sub; [exact (deliver_sub w0 QSync k w acts Hw)|].
    intros w' a' Hw'. apply IH. exact Hw'.
Qed.

Lemma flush_req_sub (w0 : Watcher) (fuel i : nat) (w : Watcher) (acts : list fact) :
  nulled_from w0 w ->
  subseq (sent_items (f_trace (flush_req fuel i w acts))) (sends (skipn i (requestEvents w0)))
  /\ nulled_from w0 (f_w (flush_req fuel i w acts)).
Proof.
  revert i w acts; induction fuel as [|f IH]; intros i w acts Hw; cbn [flush_req].
  - split; [apply subseq_nil_l|exact Hw].
  - destruct (Nat.ltb i (length (requestEvents w))); [|split; [apply subseq_nil_l|exact Hw]].
    rewrite skipn_opt, sends_app.
    apply fthen_sub; [exact (deliver_sub w0 QRequest i w acts Hw)|].
    intros w' a' Hw'. apply IH. exact Hw'.
Qed.

Lemma flush_sub (w : Watcher) (acts : list fact) :
  subseq (sent_items (f_trace (flush w acts))) (sends (rev (syncEvents w)) ++ sends (requestEvents w)).
Proof.
  assert (H : subseq (sent_items (f_trace (fthen (flush_sync (length (syncEvents w)) w acts)
                (fun w1 acts1 => flush_req (length (requestEvents w1)) 0 w1 acts1))))
                (sends (rev (syncEvents w)) ++ sends (requestEvents w))).
  { rewrite <- (firstn_all (syncEvents w)) at 2.
    change (sends (requestEvents w)) with (sends (skipn 0 (requestEvents w))).
    apply (fthen_sub w).
    - apply flush_sync_sub. split; apply nulled_refl.
    - intros w' a' Hw'. apply flush_req_sub. exact Hw'. }
  unfold flush. revert H. set (r := fthen (flush_sync _ _ _) _). intro H.
  unfold fthen. destruct (f_status r); cbn [f_trace]; [rewrite app_nil_r| |]; exact H.
Qed.

Lemma flush_ok_clears (w : Watcher) (acts : list fact) :
  f_status (flush w acts) = FOk ->
  syncEvents (f_w (flush w acts)) = [] /\ requestEvents (f_w (flush w acts)) = [].
Proof.
  unfold flush. set (r := fthen (flush_sync _ _ _) _). unfold fthen.
  destruct (f_status r) eqn:E; cbn [f_status f_w]; [split; reflexivity|intro H; congruence|intro H; congruence].
Qed.

(** C7: whatever happens while a flush is blocked (requests handled,
    including [Unwatch] purges, a panic or [Dying]), the changes it sends
    are, in order, a subsequence of the sync queue read from its last
    index to its first followed by the request queue from first to last;
    a flush that completes leaves both queues empty.  When every send
    succeeds, the sends are exactly that sequence, skipping purged
    events.  Since a sync pass queues newest-log-entry-first, a subscriber
    receives the pass's changes oldest first: for a log where m0 changed
    before m1, the collection watch gets m0's change, then m1's. *)
Theorem flush_order (w : Watcher) (acts : list fact) :
  subseq (sent_items (f_trace (flush w acts))) (sends (rev (syncEvents w)) ++ sends (requestEvents w))
  /\ (f_status (flush w acts) = FOk ->
      syncEvents (f_w (flush w acts)) = [] /\ requestEvents (f_w (flush w acts)) = [])
  /\ (Forall (eq FSend) acts ->
      (exists acts', flush w acts =
         mkFres FOk (clear_queues w) acts' (sends (rev (syncEvents w)) ++ sends (requestEvents w)))
      /\ f_trace (flush (pw (sync_pass machines_watch two_entries)) acts)
         = [TSend 1%nat (mkChange "machines"%string m0 1); TSend 1%nat (mkChange "machines"%string m1 2)]).
Proof.
  split; [apply flush_sub|split; [apply flush_ok_clears|]].
  intro Ha. split; [apply flush_send_only; exact Ha|].
  destruct (flush_send_only (pw (sync_pass machines_watch two_entries)) acts Ha) as [a' H].
  rewrite H. vm_compute. reflexivity.
Qed.

Lemma flush_order_witness :
  subseq (sent_items (f_trace (flush (pw (sync_pass machines_watch two_entries))
                                     [FReq (ReqUnwatch kMachines 1%nat)])))
         [TSend 1%nat (mkChange "machines"%string m0 1); TSend 1%nat (mkChange "machines"%string m1 2)]
  /\ f_trace (flush (pw (sync_pass machines_watch two_entries)) [FSend; FSend])
     = [TSend 1%nat (mkChange "machines"%string m0 1); TSend 1%nat (mkChange "machines"%string m1 2)].
Proof.
  assert (H : Forall (eq FSend) [FSend; FSend]) by (repeat constructor).
  split.
  - assert (E := proj1 (flush_order (pw (sync_pass machines_watch two_entries))
                          [FReq (ReqUnwatch kMachines 1%nat)])).
    vm_compute in E. vm_compute. exact E.
  - exact (proj2 (proj2 (proj2 (flush_order empty_watcher [FSend; FSend])) H)).
Defined.

Lemma process_unequal (p : pass) (b : string * cval) :
  unequal_batch b = true -> process_batch p b = p.
Proof.
  destruct b as [name cv]. unfold unequal_batch, process_batch. cbn [snd].
  destruct (parse_batch cv) as [d r]. intro H. rewrite H, orb_true_r. reflexivity.
Qed.

Lemma fold_drop_unequal (bs : list (string * cval)) (p : pass) :
  fold_left process_batch bs p =
  fold_left process_batch (filter (fun b => negb (unequal_batch b)) bs) p.
Proof.
  revert p; induction bs as [|b bs IH]; intro p; [reflexivity|].
  cbn [fold_left filter]. destruct (unequal_batch b) eqn:E; cbn [negb fold_left].
  - rewrite process_unequal by exact E. apply IH.
  - apply IH.
Qed.

Lemma sync_entries_drop (last0 : ident) (first : bool) (es : list entry) (p : pass) :
  sync_entries last0 first es p = sync_entries last0 first (map drop_unequal es) p.
Proof.
  revert first p; induction es as [|e es IH]; intros first p; [reflexivity|].
  cbn [sync_entries map]. destruct e as [i cs]. cbn [eid ecolls drop_unequal].
  destruct (ident_eqb i last0); [reflexivity|].
  rewrite IH, fold_drop_unequal. reflexivity.
Qed.

(** C8: a delta batch whose id and revno sequences have different lengths
    is skipped: it changes nothing in the pass, so a sync over the log
    gives the same watcher, seen set and queued events as a sync over the
    log with those batches removed, and the remaining batches and entries
    are processed as usual.  Whether the sync fails depends only on the
    iterator's [Close] result, never on the contents of the log. *)
Theorem invalid_batch_skipped (w : Watcher) (it : iterator) :
  (forall p b, unequal_batch b = true -> process_batch p b = p)
  /\ sync_pass w it = sync_pass w (mkIter (map drop_unequal (ientries it)) (iclose it))
  /\ sync w it = sync w (mkIter (map drop_unequal (ientries it)) (iclose it))
  /\ (snd (sync w it) = None <-> iclose it = None).
Proof.
  assert (Hp : sync_pass w it = sync_pass w (mkIter (map drop_unequal (ientries it)) (iclose it))).
  { unfold sync_pass. cbn [ientries]. apply sync_entries_drop. }
  split; [exact process_unequal|split; [exact Hp|split]].
  - unfold sync. rewrite Hp. reflexivity.
  - unfold sync. cbn [snd]. destruct (iclose it); split; congruence.
Qed.

Lemma invalid_batch_skipped_witness :
  process_batch (mkPass empty_watcher [] [])
    ("machines"%string, CDoc [("d"%string, BArr [m0; m1]); ("r"%string, BArr [Some (VInt64 1)])])
  = mkPass empty_watcher [] [].
Proof.
  apply (proj1 (invalid_batch_skipped empty_watcher empty_iter)). reflexivity.
Defined.

Lemma doc_cond_iff (r last : Z) :
  doc_cond r last = true <-> last < r \/ (r < 0 /\ 0 <= last).
Proof.
  unfold doc_cond. rewrite orb_true_iff, andb_true_iff, Z.ltb_lt, Z.ltb_lt, Z.leb_le. tauto.
Qed.

(** C2: for a candidate [(key, revno)], every entry registered on exactly
    [key] gets an event, and its revno set to [revno], if and only if
    [revno > revno_entry] or ([revno < 0] and [revno_entry >= 0]); the
    other entries of [key] and the other keys are left alone, and these
    events are queued after those of the collection-wide entries.  A
    document watch that observes revno 3, then -5, then -7 is sent exactly
    3 and then -1. *)
Theorem doc_watch_rule (w : Watcher) (key : watchKey) (r : Z) :
  watches (queue w key r) key =
    map (fun info => if doc_cond r (revno info) then set_revno info r else info) (watches w key)
  /\ (forall k, k <> key -> watches (queue w key r) k = watches w k)
  /\ syncEvents (queue w key r) =
       syncEvents w ++ queue_coll (watches w (coll_key key)) key r
       ++ map (fun info => mkEvent (Some (ch info)) key r)
              (filter (fun info => doc_cond r (revno info)) (watches w key))
  /\ (forall last, doc_cond r last = true <-> last < r \/ (r < 0 /\ 0 <= last))
  /\ sent_revnos kM0 1%nat
       (r_trace (loop [LReq (ReqWatch kM0 (mkInfo 1%nat (-2) None)); LTimer; LTimer; LTimer]
                      empty_watcher
                      [log1 1 "machines"%string [m0] [3]; log1 2 "machines"%string [m0] [-5];
                       log1 3 "machines"%string [m0] [-7]] [])) = [3; -1].
Proof.
  unfold queue. rewrite queue_doc_eq. cbn [watches syncEvents].
  split; [apply upd_same|split; [|split; [reflexivity|split]]].
  - intros k Hk. apply upd_other. congruence.
  - intro last. apply doc_cond_iff.
  - vm_compute. reflexivity.
Qed.

Lemma doc_watch_rule_witness :
  watches (queue empty_watcher kM0 3) (mkKey "machines"%string m1) = [].
Proof.
  apply (proj1 (proj2 (doc_watch_rule empty_watcher kM0 3))). discriminate.
Defined.

Lemma queue_coll_revno_free (l : list watchInfo) (g : watchInfo -> Z) key r :
  queue_coll (map (fun info => set_revno info (g info)) l) key r = queue_coll l key r.
Proof.
  induction l as [|info l IH]; [reflexivity|].
  cbn [map queue_coll]. unfold keep, set_revno at 1 2. cbn [wfilter ch].
  rewrite IH. reflexivity.
Qed.

Lemma filter_map_events (c : chan) key r (l : list watchInfo) :
  filter (ev_has_ch c) (map (fun info => mkEvent (Some (ch info)) key r) l)
  = map (fun info => mkEvent (Some (ch info)) key r) (filter (has_ch c) l).
Proof.
  induction l as [|info l IH]; [reflexivity|].
  cbn [map filter]. unfold ev_has_ch at 1, has_ch at 1. cbn [ev_ch].
  destruct (Nat.eqb (ch info) c); cbn [map]; rewrite IH; reflexivity.
Qed.

Lemma filter_comm {A} (f g : A -> bool) (l : list A) :
  filter f (filter g l) = filter g (filter f l).
Proof.
  induction l as [|x l IH]; [reflexivity|]. cbn [filter].
  destruct (g x) eqn:Eg, (f x) eqn:Ef; cbn [filter]; rewrite ?Eg, ?Ef, IH; reflexivity.
Qed.

Lemma existsb_false_filter {A} (f : A -> bool) (l : list A) :
  existsb f l = false -> filter f l = [].
Proof.
  induction l as [|x l IH]; [reflexivity|]. cbn [existsb filter].
  destruct (f x); [discriminate|]. exact IH.
Qed.

Lemma existsb_map_revno (c : chan) (f : watchInfo -> watchInfo) (l : list watchInfo) :
  (forall x, ch (f x) = ch x) -> existsb (has_ch c) (map f l) = existsb (has_ch c) l.
Proof.
  intro Hf. induction l as [|x l IH]; [reflexivity|].
  cbn [map existsb]. unfold has_ch at 1 3. rewrite Hf, IH. reflexivity.
Qed.

(** One candidate on a document key adds exactly one event for [c]. *)
Lemma queue_count_collection (coll : string) (c : chan) (w : Watcher) (di : ident) (r : Z) :
  di <> None -> only_collection_watch coll c w ->
  sync_count c (queue w (mkKey coll di) r) = S (sync_count c w)
  /\ only_collection_watch coll c (queue w (mkKey coll di) r).
Proof.
  intros Hdi [[info [Hinfo Hf]] Hother].
  assert (Hne : mkKey coll di <> mkKey coll None) by (intro H; inversion H; contradiction).
  unfold queue. rewrite queue_doc_eq. cbn [coll_key key_c syncEvents watches].
  split.
  - unfold sync_count. cbn [syncEvents]. rewrite !filter_app, !length_app.
    rewrite queue_coll_eq, filter_map_events, length_map, filter_map_events, length_map.
    cbn [key_id]. rewrite filter_comm. unfold coll_key. cbn [key_c].
    rewrite Hinfo. cbn [filter]. unfold keep at 1. rewrite Hf.
    rewrite (filter_comm (has_ch c)).
    rewrite (existsb_false_filter _ _ (Hother _ Hne)). cbn [filter length]. lia.
  - split.
    + exists info. split; [|exact Hf]. cbn [watches]. rewrite upd_other by congruence. exact Hinfo.
    + intros k Hk. cbn [watches]. destruct (key_eqb (mkKey coll di) k) eqn:E.
      * apply key_eqb_spec in E. subst k. rewrite upd_same.
        rewrite existsb_map_revno by (intro x; destruct (doc_cond r (revno x)); reflexivity).
        apply Hother. exact Hk.
      * apply key_eqb_false in E. rewrite upd_other by exact E. apply Hother. exact Hk.
Qed.

Lemma walk_cands_ok (name : string) (rows : list (ident * ident)) (p : pass) :
  cands_ok p -> cands_ok (walk name rows p).
Proof.
  revert p; induction rows as [|[di ri] rows IH]; intros p [Hnd Hin]; [split; assumption|].
  cbn [walk]. destruct (existsb (key_eqb (mkKey name di)) (seen p)) eqn:Es.
  - apply IH. split; assumption.
  - destruct (revno_of ri) as [r0|]; apply IH; split; cbn [cands seen].
    + rewrite map_app. cbn [map fst]. apply NoDup_app; [exact Hnd|constructor; [intros []|constructor]|].
      intros k Hk [Hk'|[]]. subst k. apply Hin in Hk.
      assert (existsb (key_eqb (mkKey name di)) (seen p) = true)
        by (apply existsb_exists; exists (mkKey name di); split; [exact Hk|apply key_eqb_refl]).
      congruence.
    + intros k Hk. rewrite map_app in Hk. apply in_app_or in Hk. destruct Hk as [Hk|[Hk|[]]].
      * right. apply Hin. exact Hk.
      * left. exact Hk.
    + exact Hnd.
    + intros k Hk. right. apply Hin. exact Hk.
Qed.

Lemma process_batch_cands_ok (p : pass) (b : string * cval) :
  cands_ok p -> cands_ok (process_batch p b).
Proof.
  destruct b as [name cv]. unfold process_batch. destruct (parse_batch cv) as [d r].
  destruct (_ || _); [auto|apply walk_cands_ok].
Qed.

Lemma fold_cands_ok (bs : list (string * cval)) (p : pass) :
  cands_ok p -> cands_ok (fold_left process_batch bs p).
Proof.
  revert p; induction bs as [|b bs IH]; intros p Hp; [exact Hp|].
  cbn [fold_left]. apply IH, process_batch_cands_ok, Hp.
Qed.

Lemma sync_entries_cands_ok (last0 : ident) (first : bool) (es : list entry) (p : pass) :
  cands_ok p -> cands_ok (sync_entries last0 first es p).
Proof.
  revert first p; induction es as [|e es IH]; intros first p Hp; [exact Hp|].
  cbn [sync_entries].
  assert (Hp1 : cands_ok (if first then mkPass (set_lastId (pw p) (eid e)) (seen p) (cands p) else p))
    by (destruct first; exact Hp).
  destruct (ident_eqb (eid e) last0); [exact Hp1|].
  apply IH, fold_cands_ok, Hp1.
Qed.

Lemma queue_count_other (coll : string) (c : chan) (w : Watcher) (key : watchKey) (r : Z) :
  key_c key <> coll -> only_collection_watch coll c w ->
  sync_count c (queue w key r) = sync_count c w /\ only_collection_watch coll c (queue w key r).
Proof.
  intros Hc0 [[info [Hinfo Hf]] Hother].
  assert (Hne : key <> mkKey coll None) by (intro H; subst key; apply Hc0; reflexivity).
  assert (Hcne : coll_key key <> mkKey coll None)
    by (unfold coll_key; intro H; inversion H; contradiction).
  unfold queue. rewrite queue_doc_eq. cbn [syncEvents watches].
  split.
  - unfold sync_count. cbn [syncEvents]. rewrite !filter_app, !length_app.
    rewrite queue_coll_eq, filter_map_events, length_map, filter_map_events, length_map.
    rewrite (filter_comm (has_ch c) (fun info => keep info (key_id key))).
    rewrite (existsb_false_filter _ _ (Hother _ Hcne)).
    rewrite (filter_comm (has_ch c)), (existsb_false_filter _ _ (Hother _ Hne)).
    cbn [filter length]. lia.
  - split.
    + exists info. split; [|exact Hf]. cbn [watches]. rewrite upd_other by congruence. exact Hinfo.
    + intros k Hk. cbn [watches]. destruct (key_eqb key k) eqn:E.
      * apply key_eqb_spec in E. subst k. rewrite upd_same.
        rewrite existsb_map_revno by (intro x; destruct (doc_cond r (revno x)); reflexivity).
        apply Hother. exact Hk.
      * apply key_eqb_false in E. rewrite upd_other by exact E. apply Hother. exact Hk.
Qed.

Lemma queue_count_any (coll : string) (c : chan) (w : Watcher) (key : watchKey) (r : Z) :
  key_id key <> None -> only_collection_watch coll c w ->
  sync_count c (queue w key r) = (sync_count c w + if String.eqb (key_c key) coll then 1 else 0)%nat
  /\ only_collection_watch coll c (queue w key r).
Proof.
  intros Hid Ho. destruct (String.eqb_spec (key_c key) coll) as [E|E].
  - destruct key as [kc ki]. cbn [key_c key_id] in *. subst kc.
    destruct (queue_count_collection coll c w ki r Hid Ho) as [H1 H2]. split; [lia|exact H2].
  - destruct (queue_count_other coll c w key r E Ho) as [H1 H2]. split; [lia|exact H2].
Qed.

Lemma walk_count (coll : string) (c : chan) (name : string) (rows : list (ident * ident)) (p : pass) :
  (forall row, In row rows -> fst row <> None) -> only_collection_watch coll c (pw p) ->
  (sync_count c (pw (walk name rows p)) + coll_cands coll p
   = sync_count c (pw p) + coll_cands coll (walk name rows p))%nat
  /\ only_collection_watch coll c (pw (walk name rows p)).
Proof.
  revert p; induction rows as [|[di ri] rows IH]; intros p Hn Ho; cbn [walk].
  - split; [reflexivity|exact Ho].
  - assert (Hn' : forall row, In row rows -> fst row <> None) by (intros row H; apply Hn; right; exact H).
    destruct (existsb _ (seen p)); [apply IH; assumption|].
    destruct (revno_of ri) as [r0|].
    + destruct (queue_count_any coll c (pw p) (mkKey name di) (normalize r0)) as [Hc Ho'].
      { exact (Hn (di, ri) (or_introl eq_refl)). }
      { exact Ho. }
      destruct (IH (mkPass (queue (pw p) (mkKey name di) (normalize r0)) (mkKey name di :: seen p)
                           (cands p ++ [(mkKey name di, normalize r0)])) Hn' Ho') as [IHc IHo].
      cbn [pw] in *. split; [|exact IHo].
      unfold coll_cands in *. cbn [cands] in IHc. rewrite filter_app, length_app in IHc.
      cbn [filter fst key_c] in IHc, Hc.
      destruct (String.eqb name coll); cbn [length] in *; lia.
    + exact (IH (mkPass (pw p) (mkKey name di :: seen p) (cands p)) Hn' Ho).
Qed.

Lemma fold_count (coll : string) (c : chan) (bs : list (string * cval)) (p : pass) :
  (forall b, In b bs -> ~ In None (fst (parse_batch (snd b)))) -> only_collection_watch coll c (pw p) ->
  (sync_count c (pw (fold_left process_batch bs p)) + coll_cands coll p
   = sync_count c (pw p) + coll_cands coll (fold_left process_batch bs p))%nat
  /\ only_collection_watch coll c (pw (fold_left process_batch bs p)).
Proof.
  revert p; induction bs as [|[name cv] bs IH]; intros p Hb Ho; cbn [fold_left].
  - split; [reflexivity|exact Ho].
  - assert (Hp : (sync_count c (pw (process_batch p (name, cv))) + coll_cands coll p
                  = sync_count c (pw p) + coll_cands coll (process_batch p (name, cv)))%nat
                 /\ only_collection_watch coll c (pw (process_batch p (name, cv)))).
    { specialize (Hb (name, cv) (or_introl eq_refl)). cbn [snd] in Hb.
      unfold process_batch. destruct (parse_batch cv) as [d r]. cbn [fst] in Hb.
      destruct (_ || _); [split; [reflexivity|exact Ho]|].
      apply walk_count; [|exact Ho].
      intros [x y] Hin. apply in_rev, in_combine_l in Hin. cbn [fst]. intro E; subst x. contradiction. }
    destruct Hp as [Hc Ho'].
    destruct (IH _ (fun b H => Hb b (or_intror H)) Ho') as [IHc IHo]. split; [lia|exact IHo].
Qed.

Lemma entries_count (coll : string) (c : chan) (last0 : ident) (first : bool) (es : list entry) (p : pass) :
  (forall e b, In e es -> In b (ecolls e) -> ~ In None (fst (parse_batch (snd b)))) ->
  only_collection_watch coll c (pw p) ->
  (sync_count c (pw (sync_entries last0 first es p)) + coll_cands coll p
   = sync_count c (pw p) + coll_cands coll (sync_entries last0 first es p))%nat
  /\ only_collection_watch coll c (pw (sync_entries last0 first es p)).
Proof.
  revert first p; induction es as [|e es IH]; intros first p He Ho; cbn [sync_entries].
  - split; [reflexivity|exact Ho].
  - set (p1 := if first then mkPass (set_lastId (pw p) (eid e)) (seen p) (cands p) else p).
    assert (H1 : sync_count c (pw p1) = sync_count c (pw p) /\ coll_cands coll p1 = coll_cands coll p
                 /\ only_collection_watch coll c (pw p1))
      by (unfold p1; destruct first; (split; [reflexivity|split; [reflexivity|exact Ho]])).
    destruct H1 as [E1 [E2 Ho1]].
    destruct (ident_eqb (eid e) last0); [split; [lia|exact Ho1]|].
    destruct (fold_count coll c (ecolls e) p1 (fun b Hb => He e b (or_introl eq_refl) Hb) Ho1) as [Fc Fo].
    destruct (IH false _ (fun e' b H Hb => He e' b (or_intror H) Hb) Fo) as [IHc IHo].
    split; [lia|exact IHo].
Qed.

(** C3: for a candidate [(key, revno)], every entry registered on the
    collection-wide key of [key]'s collection gets an event exactly when it
    has no filter or its filter accepts the document id; the entries'
    own revnos play no part.  Hence, when the only registration using [c]
    is a collection watch on [coll] without a filter, a pass (over any
    number of log entries) queues for [c] exactly one event per candidate
    of [coll], and the candidates are distinct document keys: [N] distinct
    document changes of [coll] give [N] events.  Logs whose batches hold a
    nil document id are left out: such a row names the collection key
    itself. *)
Theorem collection_watch_rule (w : Watcher) (key : watchKey) (r : Z) :
  (exists docEvs, syncEvents (queue w key r) =
     syncEvents w
     ++ map (fun info => mkEvent (Some (ch info)) key r)
            (filter (fun info => keep info (key_id key)) (watches w (coll_key key)))
     ++ docEvs)
  /\ (forall g : watchInfo -> Z,
        queue_coll (map (fun info => set_revno info (g info)) (watches w (coll_key key))) key r
           = queue_coll (watches w (coll_key key)) key r)
  /\ (forall (coll : string) (c : chan) (it : iterator),
        log_ids_ok it -> only_collection_watch coll c w ->
        sync_count c (pw (sync_pass w it)) = (sync_count c w + coll_cands coll (sync_pass w it))%nat
        /\ NoDup (map fst (cands (sync_pass w it)))).
Proof.
  split; [|split].
  - unfold queue. rewrite queue_doc_eq, queue_coll_eq. cbn [syncEvents].
    eexists. reflexivity.
  - intro g. apply queue_coll_revno_free.
  - intros coll c it Hl Ho. unfold sync_pass. split.
    + destruct (entries_count coll c (lastId w) true (ientries it) (mkPass (set_needSync w false) [] [])
                  Hl Ho) as [Hc _].
      change (coll_cands coll (mkPass (set_needSync w false) [] [])) with 0%nat in Hc.
      change (sync_count c (pw (mkPass (set_needSync w false) [] []))) with (sync_count c w) in Hc.
      lia.
    + apply sync_entries_cands_ok. split; [constructor|intros k []].
Qed.

Lemma collection_watch_rule_witness :
  log_ids_ok two_entries /\ sync_count 1%nat (pw (sync_pass machines_watch two_entries)) = 2%nat.
Proof.
  assert (Hl : log_ids_ok two_entries).
  { intros e b He Hb. cbn [two_entries ientries In] in He.
    destruct He as [He|[He|[]]]; subst e; cbn [entry1 ecolls In] in Hb; destruct Hb as [Hb|[]]; subst b;
      vm_compute; intros [H|[]]; discriminate. }
  assert (Ho : only_collection_watch "machines"%string 1%nat machines_watch).
  { split.
    - exists (mkInfo 1%nat 0 None). split; reflexivity.
    - intros k Hk. unfold machines_watch, set_watches, upd. cbn [watches].
      apply key_eqb_false in Hk. rewrite (proj2 (key_eqb_false _ _) (not_eq_sym (proj1 (key_eqb_false _ _) Hk))).
      reflexivity. }
  split; [exact Hl|].
  destruct (proj2 (proj2 (collection_watch_rule machines_watch kM0 0)) "machines"%string 1%nat two_entries Hl Ho)
    as [E _].
  rewrite E. vm_compute. reflexivity.
Defined.


Lemma in_seen_existsb (k : watchKey) (l : list watchKey) :
  existsb (key_eqb k) l = true -> In k l.
Proof.
  intro H. apply existsb_exists in H. destruct H as [x [Hx Hk]].
  apply key_eqb_spec in Hk. subst x. exact Hx.
Qed.

Lemma existsb_key_in (k : watchKey) (l : list watchKey) :
  In k l -> existsb (key_eqb k) l = true.
Proof.
  intro H. apply existsb_exists. exists k. split; [exact H|apply key_eqb_refl].
Qed.

Lemma walk_cand_origin (name : string) (rows : list (ident * ident)) (p : pass) k rv :
  In (k, rv) (cands (walk name rows p)) ->
  In (k, rv) (cands p)
  \/ exists pre di ri post,
       rows = pre ++ (di, ri) :: post /\ k = mkKey name di
       /\ option_map normalize (revno_of ri) = Some rv
       /\ ~ In k (seen p)
       /\ Forall (fun row => mkKey name (fst row) <> k) pre.
Proof.
  revert p; induction rows as [|[dj rj] rows IH]; intros p H; [left; exact H|].
  cbn [walk] in H. destruct (existsb (key_eqb (mkKey name dj)) (seen p)) eqn:Es.
  - destruct (IH p H) as [H'|[pre [di [ri [post [Hr [Hk [Hv [Hs Hpre]]]]]]]]]; [left; exact H'|].
    right. exists ((dj, rj) :: pre), di, ri, post. split; [rewrite Hr; reflexivity|].
    split; [exact Hk|split; [exact Hv|split; [exact Hs|]]]. constructor; [|exact Hpre].
    cbn [fst]. intro Heq. apply Hs. rewrite <- Heq. apply in_seen_existsb. exact Es.
  - assert (Hnj : ~ In (mkKey name dj) (seen p)) by (intro Hin; apply existsb_key_in in Hin; congruence).
    destruct (revno_of rj) as [r0|] eqn:Er.
    + destruct (IH _ H) as [H'|[pre [di [ri [post [Hr [Hk [Hv [Hs Hpre]]]]]]]]]; cbn [cands seen] in *.
      * apply in_app_or in H'. destruct H' as [H'|[H'|[]]]; [left; exact H'|].
        inversion H'; subst k rv. right. exists [], dj, rj, rows.
        split; [reflexivity|split; [reflexivity|split; [rewrite Er; reflexivity|split; [exact Hnj|constructor]]]].
      * right. exists ((dj, rj) :: pre), di, ri, post.
        split; [rewrite Hr; reflexivity|split; [exact Hk|split; [exact Hv|split]]].
        -- intro Hin. apply Hs. right. exact Hin.
        -- constructor; [|exact Hpre]. cbn [fst]. intro Heq. apply Hs. left. exact Heq.
    + destruct (IH _ H) as [H'|[pre [di [ri [post [Hr [Hk [Hv [Hs Hpre]]]]]]]]]; cbn [cands seen] in *.
      * left. exact H'.
      * right. exists ((dj, rj) :: pre), di, ri, post.
        split; [rewrite Hr; reflexivity|split; [exact Hk|split; [exact Hv|split]]].
        -- intro Hin. apply Hs. right. exact Hin.
        -- constructor; [|exact Hpre]. cbn [fst]. intro Heq. apply Hs. left. exact Heq.
Qed.

(** C4: within one sync pass each [(collection, id)] key gives at most one
    candidate change, however many log entries or rows mention it; and
    since a delta batch is walked from its last row to its first, a
    candidate coming from a batch is taken from the last row of that batch
    with its id. *)
Theorem one_candidate_per_key (w : Watcher) (it : iterator) :
  NoDup (map fst (cands (sync_pass w it)))
  /\ (forall (p : pass) (name : string) (cv : cval) (d r : list ident) (k : watchKey) (rv : Z),
        parse_batch cv = (d, r) ->
        In (k, rv) (cands (process_batch p (name, cv))) -> ~ In (k, rv) (cands p) ->
        exists pre di ri post,
          combine d r = pre ++ (di, ri) :: post /\ k = mkKey name di
          /\ option_map normalize (revno_of ri) = Some rv
          /\ Forall (fun row => fst row <> di) post).
Proof.
  split.
  - apply sync_entries_cands_ok. split; [constructor|intros k []].
  - intros p name cv d r k rv Hp Hin Hnot. unfold process_batch in Hin. rewrite Hp in Hin.
    destruct (_ || _); [contradiction|].
    destruct (walk_cand_origin _ _ _ _ _ Hin) as [H|[pre [di [ri [post [Hr [Hk [Hv [_ Hpre]]]]]]]]];
      [contradiction|].
    exists (rev post), di, ri, (rev pre).
    split; [|split; [exact Hk|split; [exact Hv|]]].
    + rewrite <- (rev_involutive (combine d r)), Hr, rev_app_distr. cbn [rev].
      rewrite <- app_assoc. reflexivity.
    + apply Forall_rev. eapply Forall_impl; [|exact Hpre].
      intros [dj rj] H Heq. cbn [fst] in *. subst dj. apply H. subst k. reflexivity.
Qed.

Lemma one_candidate_per_key_witness :
  exists pre di ri post,
    combine [m0; m1; m0] [Some (VInt64 1); Some (VInt64 2); Some (VInt64 3)]
      = pre ++ (di, ri) :: post
    /\ kM0 = mkKey "machines"%string di
    /\ option_map normalize (revno_of ri) = Some 3
    /\ Forall (fun row => fst row <> di) post.
Proof.
  apply (proj2 (one_candidate_per_key empty_watcher empty_iter)
           (mkPass empty_watcher [] [])
           "machines"%string
           (CDoc [("d"%string, BArr [m0; m1; m0]);
                  ("r"%string, BArr [Some (VInt64 1); Some (VInt64 2); Some (VInt64 3)])])).
  - reflexivity.
  - vm_compute. left. reflexivity.
  - intros [].
Defined.

Lemma in_purge (k : watchKey) (c : chan) (l : list event) e :
  In e (purge k c l) ->
  exists e0, In e0 l /\ (e = e0 \/ e = mkEvent None (ev_key e0) (ev_revno e0))
             /\ (e = e0 -> ev_ch e0 = Some c -> key_match k (ev_key e0) = false).
Proof.
  unfold purge. intro H. apply in_map_iff in H. destruct H as [e0 [He Hin]].
  exists e0. split; [exact Hin|].
  destruct (key_match k (ev_key e0)) eqn:Em; destruct (ev_ch e0) as [c'|] eqn:Ec; cbn in He.
  - destruct (Nat.eqb c' c) eqn:Ecc; cbn in He.
    + split; [right; symmetry; exact He|]. intros H1. rewrite H1 in He. rewrite <- He in Ec. discriminate.
    + split; [left; symmetry; exact He|]. intros _ H2. inversion H2; subst. rewrite Nat.eqb_refl in Ecc. discriminate.
  - split; [left; symmetry; exact He|]. intros _ H2. discriminate.
  - split; [left; symmetry; exact He|]. intros _ _. reflexivity.
  - split; [left; symmetry; exact He|]. intros _ _. reflexivity.
Qed.

Lemma purge_purged (k : watchKey) (c : chan) (l : list event) e :
  In e (purge k c l) -> ev_ch e = Some c -> key_match k (ev_key e) = false.
Proof.
  intros H Hc. destruct (in_purge _ _ _ _ H) as [e0 [_ [[-> | ->] Hk]]].
  - apply Hk; [reflexivity|exact Hc].
  - discriminate.
Qed.

Lemma purge_keeps (k : watchKey) (c : chan) (l : list event) (P : event -> Prop) :
  (forall e, In e l -> ev_ch e <> None -> P e) ->
  forall e, In e (purge k c l) -> ev_ch e <> None -> P e.
Proof.
  intros H e He Hn. destruct (in_purge _ _ _ _ He) as [e0 [Hin [[-> | ->] _]]].
  - apply H; assumption.
  - contradiction Hn; reflexivity.
Qed.

Lemma handle_unwatch_purged (w w' : Watcher) (k : watchKey) (c : chan) rep :
  handle w (ReqUnwatch k c) = Some (w', rep) -> purged k c w'.
Proof.
  cbn [handle]. destruct (find_index (has_ch c) (watches w k)); [|discriminate].
  intro H; inversion H; subst w' rep. intros e He Hc. cbn [syncEvents requestEvents] in He.
  apply in_app_or in He. destruct He as [He|He]; eapply purge_purged; eassumption.
Qed.

Lemma handle_keeps_purged (w w' : Watcher) (r : req) rep (k : watchKey) (c : chan) :
  handle w r = Some (w', rep) -> purged k c w -> purged k c w'.
Proof.
  intros H Hp. destruct r as [|key info|key c'|coll ids wch]; cbn [handle] in H.
  - inversion H; subst. exact Hp.
  - destruct (existsb _ _); [discriminate|]. inversion H; subst. exact Hp.
  - destruct (find_index (has_ch c') (watches w key)); [|discriminate].
    inversion H; subst w' rep. intros e He Hc. cbn [syncEvents requestEvents] in He.
    assert (Hq : forall e0, In e0 (syncEvents w ++ requestEvents w) -> ev_ch e0 <> None ->
                 ev_ch e0 = Some c -> key_match k (ev_key e0) = false)
      by (intros e0 H0 _; apply Hp; exact H0).
    apply in_app_or in He. destruct He as [He|He].
    + apply (purge_keeps key c' (syncEvents w)
               (fun e0 => ev_ch e0 = Some c -> key_match k (ev_key e0) = false)) with (e := e);
        [|exact He|rewrite Hc; discriminate|exact Hc].
      intros e0 H0 Hn. apply Hq; [apply in_or_app; left; exact H0|exact Hn].
    + apply (purge_keeps key c' (requestEvents w)
               (fun e0 => ev_ch e0 = Some c -> key_match k (ev_key e0) = false)) with (e := e);
        [|exact He|rewrite Hc; discriminate|exact Hc].
      intros e0 H0 Hn. apply Hq; [apply in_or_app; right; exact H0|exact Hn].
  - destruct (find_conflict _ _ _ _); inversion H; subst; exact Hp.
Qed.

Lemma good_nil (k : watchKey) (c : chan) (st : fstatus) (w : Watcher) (acts : list fact) :
  flush_good k c w (mkFres st w acts []).
Proof.
  split; [|split]; cbn [f_trace f_w].
  - intros [H|[rep []]]. exact H.
  - intros _ [chg [[] _]].
  - intros tr1 rep tr2 H. destruct tr1; discriminate.
Qed.

Lemma pending_in (q : queueSel) (w : Watcher) (i : nat) c' chg :
  pending q w i = Some (c', chg) ->
  exists e, In e (syncEvents w ++ requestEvents w) /\ ev_ch e = Some c'
            /\ mkKey (C chg) (Id chg) = ev_key e.
Proof.
  unfold pending. destruct (nth_error (queue_of q w) i) as [e|] eqn:He; [|discriminate].
  destruct (ev_ch e) as [c0|] eqn:Ec; [|discriminate]. intro H; inversion H; subst.
  exists e. split; [|split; [exact Ec|cbn; destruct (ev_key e); reflexivity]].
  apply nth_error_In in He. apply in_or_app. destruct q; [left|right]; exact He.
Qed.

Lemma good_send (k : watchKey) (c : chan) (q : queueSel) (w : Watcher) (i : nat) c' chg acts :
  pending q w i = Some (c', chg) -> flush_good k c w (mkFres FOk w acts [TSend c' chg]).
Proof.
  intro Hp. split; [|split]; cbn [f_trace f_w].
  - intros [H|[rep [H|[]]]]; [exact H|discriminate].
  - intros Hpg [chg' [[H|[]] Hm]]. inversion H; subst c' chg'.
    destruct (pending_in _ _ _ _ _ Hp) as [e [He [Hc Hk]]].
    rewrite Hk in Hm. rewrite (Hpg e He Hc) in Hm. discriminate.
  - intros [|x tr1] rep tr2 H; [discriminate|].
    inversion H as [[Hx Htl]]. destruct tr1; discriminate.
Qed.

Lemma good_handled (k : watchKey) (c : chan) (w w' : Watcher) (r : req) rep (res : fres) :
  handle w r = Some (w', rep) -> flush_good k c w' res ->
  flush_good k c w (mkFres (f_status res) (f_w res) (f_acts res) (THandled r rep :: f_trace res)).
Proof.
  intros Hh [G1 [G2 G3]]. split; [|split]; cbn [f_trace f_w].
  - intros [H|[rep0 [H|H]]].
    + apply G1. left. exact (handle_keeps_purged _ _ _ _ _ _ Hh H).
    + inversion H; subst r rep0. apply G1. left. exact (handle_unwatch_purged _ _ _ _ _ Hh).
    + apply G1. right. exists rep0. exact H.
  - intros Hp [chg [[H|H] Hm]]; [discriminate|].
    apply (G2 (handle_keeps_purged _ _ _ _ _ _ Hh Hp)). exists chg. split; assumption.
  - intros [|x tr1] rep0 tr2 H.
    + inversion H; subst r rep0 tr2. apply G2. exact (handle_unwatch_purged _ _ _ _ _ Hh).
    + inversion H; subst x. apply (G3 tr1 rep0 tr2). assumption.
Qed.

Lemma deliver_good (k : watchKey) (c : chan) (q : queueSel) (i : nat) (acts : list fact) (w : Watcher) :
  flush_good k c w (deliver q i w acts).
Proof.
  revert w; induction acts as [|a acts IH]; intro w; cbn [deliver].
  - destruct (pending q w i) as [[c' chg]|] eqn:Hp; [eapply good_send; exact Hp|apply good_nil].
  - destruct (pending q w i) as [[c' chg]|] eqn:Hp; [|apply good_nil].
    destruct a as [|r|].
    + eapply good_send; exact Hp.
    + destruct (handle w r) as [[w' rep]|] eqn:Hh; [|apply good_nil].
      apply (good_handled _ _ _ _ _ _ _ Hh). apply IH.
    + apply good_nil.
Qed.

Lemma sends_to_app (k : watchKey) (c : chan) (t1 t2 : list titem) :
  sends_to k c (t1 ++ t2) -> sends_to k c t1 \/ sends_to k c t2.
Proof.
  intros [chg [H Hm]]. apply in_app_or in H.
  destruct H; [left|right]; exists chg; split; assumption.
Qed.

Lemma fthen_good (k : watchKey) (c : chan) (w : Watcher) (res : fres) (g : Watcher -> list fact -> fres) :
  flush_good k c w res -> (forall w' a', flush_good k c w' (g w' a')) ->
  flush_good k c w (fthen res g).
Proof.
  intros [G1 [G2 G3]] Hg. unfold fthen.
  destruct (f_status res); [|split; [exact G1|split; assumption]|split; [exact G1|split; assumption]].
  destruct (Hg (f_w res) (f_acts res)) as [H1 [H2 H3]].
  split; [|split]; cbn [f_trace f_w].
  - intros [H|[rep Hin]].
    + apply H1. left. apply G1. left. exact H.
    + apply in_app_or in Hin. destruct Hin as [Hin|Hin].
      * apply H1. left. apply G1. right. exists rep. exact Hin.
      * apply H1. right. exists rep. exact Hin.
  - intros Hp Hs. apply sends_to_app in Hs. destruct Hs as [Hs|Hs].
    + exact (G2 Hp Hs).
    + apply (H2 (G1 (or_introl Hp))). exact Hs.
  - intros tr1 rep tr2 H. apply app_eq_app in H. destruct H as [l [[Ht1 Hl]|[Ht1 Hl]]].
    + destruct l as [|x l].
      * (* the Unwatch opens the second part *)
        apply (H3 [] rep tr2). symmetry; exact Hl.
      * (* the Unwatch is in the first part *)
        inversion Hl as [[Hx Htr2]]; subst x tr2.
        intro Hs. apply sends_to_app in Hs. destruct Hs as [Hs|Hs].
        -- exact (G3 tr1 rep l Ht1 Hs).
        -- refine (H2 (G1 (or_intror (ex_intro _ rep _))) Hs).
           rewrite Ht1. apply in_or_app. right. left. reflexivity.
    + (* the Unwatch is inside the second part *)
      apply (H3 l rep tr2). exact Hl.
Qed.

Lemma flush_sync_good (k : watchKey) (c : chan) (n : nat) (w : Watcher) (acts : list fact) :
  flush_good k c w (flush_sync n w acts).
Proof.
  revert w acts; induction n as [|n IH]; intros w acts; cbn [flush_sync].
  - apply good_nil.
  - apply fthen_good; [apply deliver_good|exact IH].
Qed.

Lemma flush_req_good (k : watchKey) (c : chan) (fuel i : nat) (w : Watcher) (acts : list fact) :
  flush_good k c w (flush_req fuel i w acts).
Proof.
  revert i w acts; induction fuel as [|f IH]; intros i w acts; cbn [flush_req].
  - apply good_nil.
  - destruct (Nat.ltb i (length (requestEvents w))); [|apply good_nil].
    apply fthen_good; [apply deliver_good|intros; apply IH].
Qed.

Lemma flush_all_good (k : watchKey) (c : chan) (w : Watcher) (acts : list fact) :
  flush_good k c w (flush w acts).
Proof.
  unfold flush. apply fthen_good; [apply fthen_good|].
  - apply flush_sync_good.
  - intros; apply flush_req_good.
  - intros w2 a2. split; [|split]; cbn [f_trace f_w].
    + intros _ e [] _.
    + intros _ [chg [[] _]].
    + intros [|x tr1] rep tr2 H; discriminate.
Qed.

(** C6: once [Unwatch] (or [UnwatchCollection]) of [(k, c)] has been handled,
    no change for a key matched by [k] is sent to [c]: neither by a flush run
    afterwards, nor later in the flush during which the request was handled,
    even though such events may have been queued before the request. *)
Theorem unwatch_purges_pending (w w' : Watcher) (k : watchKey) (c : chan) (rep : reply)
    (acts : list fact) (tr1 tr2 : list titem) :
  (handle w (ReqUnwatch k c) = Some (w', rep) -> ~ sends_to k c (f_trace (flush w' acts)))
  /\ (f_trace (flush w acts) = tr1 ++ THandled (ReqUnwatch k c) rep :: tr2 -> ~ sends_to k c tr2).
Proof.
  split.
  - intro Hh. destruct (flush_all_good k c w' acts) as [_ [G2 _]].
    exact (G2 (handle_unwatch_purged _ _ _ _ _ Hh)).
  - destruct (flush_all_good k c w acts) as [_ [_ G3]]. exact (G3 tr1 rep tr2).
Qed.

Lemma unwatch_purges_pending_witness :
  sends_to kMachines 1%nat (f_trace (flush (pw (sync_pass machines_watch two_entries)) []))
  /\ (exists w' rep, handle (pw (sync_pass machines_watch two_entries)) (ReqUnwatch kMachines 1%nat)
                      = Some (w', rep)
                    /\ ~ sends_to kMachines 1%nat (f_trace (flush w' [])))
  /\ (exists tr1 rep tr2,
        f_trace (flush (pw (sync_pass machines_watch two_entries)) [FSend; FReq (ReqUnwatch kMachines 1%nat)])
        = tr1 ++ THandled (ReqUnwatch kMachines 1%nat) rep :: tr2
        /\ ~ sends_to kMachines 1%nat tr2).
Proof.
  split; [|split].
  - exists (mkChange "machines"%string m0 1). split; [vm_compute; auto|reflexivity].
  - eexists; eexists. split; [vm_compute; reflexivity|].
    eapply (proj1 (unwatch_purges_pending (pw (sync_pass machines_watch two_entries)) _ kMachines 1%nat _ []
                    [] [])).
    vm_compute; reflexivity.
  - exists [TSend 1%nat (mkChange "machines"%string m0 1)], NoReply, [].
    split; [vm_compute; reflexivity|].
    apply (proj2 (unwatch_purges_pending (pw (sync_pass machines_watch two_entries)) empty_watcher kMachines 1%nat
                    NoReply [FSend; FReq (ReqUnwatch kMachines 1%nat)]
                    [TSend 1%nat (mkChange "machines"%string m0 1)] [])).
    vm_compute; reflexivity.
Defined.

Lemma Permutation_filter' {A} (f : A -> bool) (l l' : list A) :
  Permutation l l' -> Permutation (filter f l) (filter f l').
Proof.
  induction 1; cbn [filter].
  - constructor.
  - destruct (f x); [constructor|]; assumption.
  - destruct (f x), (f y); try constructor; reflexivity.
  - eapply perm_trans; eassumption.
Qed.

Lemma find_index_split {A} (p : A -> bool) (l : list A) i :
  find_index p l = Some i -> exists a x b, l = a ++ x :: b /\ length a = i /\ p x = true.
Proof.
  revert i; induction l as [|y l IH]; intros i H; cbn [find_index] in H; [discriminate|].
  destruct (p y) eqn:Ey.
  - inversion H; subst. exists [], y, l. auto.
  - destruct (find_index p l) as [j|] eqn:Ej; [|discriminate]. inversion H; subst.
    destruct (IH j eq_refl) as [a [x [b [-> [Hl Hx]]]]].
    exists (y :: a), x, b. cbn. auto.
Qed.

Lemma list_set_app {A} (a b : list A) (x y : A) :
  list_set (a ++ x :: b) (length a) y = a ++ y :: b.
Proof. induction a as [|z a IH]; cbn; [reflexivity|rewrite IH; reflexivity]. Qed.

Lemma swap_remove_perm (a b : list watchInfo) (x : watchInfo) :
  Permutation (swap_remove (a ++ x :: b) (length a)) (a ++ b).
Proof.
  unfold swap_remove. destruct (rev b) as [|z rb] eqn:Eb.
  - assert (b = []) by (destruct b; [reflexivity|]; apply (f_equal (@length _)) in Eb;
      rewrite length_rev in Eb; discriminate).
    subst b. rewrite last_last, list_set_app, removelast_last, app_nil_r. reflexivity.
  - assert (Hb : b = rev rb ++ [z]) by (rewrite <- (rev_involutive b), Eb; reflexivity).
    rewrite Hb.
    replace (a ++ x :: rev rb ++ [z]) with ((a ++ x :: rev rb) ++ [z])
      by (rewrite <- app_assoc; reflexivity).
    rewrite last_last.
    replace ((a ++ x :: rev rb) ++ [z]) with (a ++ x :: (rev rb ++ [z]))
      by (rewrite <- app_assoc; reflexivity).
    rewrite list_set_app.
    replace (a ++ z :: rev rb ++ [z]) with ((a ++ z :: rev rb) ++ [z])
      by (rewrite <- app_assoc; reflexivity).
    rewrite removelast_last. apply Permutation_app_head.
    change (z :: rev rb) with ([z] ++ rev rb). apply Permutation_app_comm.
Qed.

Lemma filter_repeat_other (c c' : chan) (n : nat) (r : Z) f :
  c' <> c -> filter (has_ch c) (repeat (mkInfo c' r f) n) = [].
Proof.
  intro H. induction n as [|n IH]; cbn; [reflexivity|].
  unfold has_ch at 1; cbn [ch]. apply Nat.eqb_neq in H. rewrite H. exact IH.
Qed.

Lemma names_ch_false (c : chan) (r : req) :
  names_ch c r = false -> forall c', req_chan r = Some c' -> c' <> c.
Proof.
  unfold names_ch. intros H c' Hr. rewrite Hr in H. apply Nat.eqb_neq. exact H.
Qed.

Lemma reg_at_perm (K : watchKey) (c : chan) (lp : Z) (w w' : Watcher) :
  (forall k, Permutation (filter (has_ch c) (watches w' k)) (filter (has_ch c) (watches w k))) ->
  reg_at K c lp w' = reg_at K c lp w.
Proof.
  intro H. unfold reg_at.
  assert (E1 : forall (l l' : list watchInfo), Permutation l' l ->
            match l' with [info] => Z.eqb (revno info) lp | _ => false end
            = match l with [info] => Z.eqb (revno info) lp | _ => false end).
  { intros l l' P. destruct l as [|i [|j l]].
    - symmetry in P. apply Permutation_nil in P. subst. reflexivity.
    - symmetry in P. apply Permutation_length_1_inv in P. subst. reflexivity.
    - destruct l' as [|i' [|j' l']]; try reflexivity.
      apply Permutation_length in P. discriminate. }
  assert (E2 : forall (l l' : list watchInfo), Permutation l' l ->
            match l' with [] => true | _ => false end = match l with [] => true | _ => false end).
  { intros l l' P. destruct l, l'; try reflexivity.
    - apply Permutation_length in P. discriminate.
    - apply Permutation_length in P. discriminate. }
  rewrite (E1 _ _ (H K)), (E2 _ _ (H (coll_key K))). reflexivity.
Qed.

Lemma qview_purge (K : watchKey) (c c' : chan) (key : watchKey) (l : list event) :
  c' <> c -> qview K c (purge key c' l) = qview K c l.
Proof.
  intro Hc. unfold qview, purge. rewrite map_map. apply map_ext. intro e.
  destruct (key_match key (ev_key e)); cbn [andb]; [|reflexivity].
  destruct (ev_ch e) as [c0|] eqn:E; [|reflexivity].
  destruct (Nat.eqb c0 c') eqn:E0; [|reflexivity].
  apply Nat.eqb_eq in E0. subst c0.
  unfold evview, sel, ev_has_ch. cbn [ev_ch]. rewrite E.
  apply Nat.eqb_neq in Hc. rewrite Hc. reflexivity.
Qed.

Lemma somes_app (l1 l2 : list (option Z)) : somes (l1 ++ l2) = somes l1 ++ somes l2.
Proof. induction l1 as [|[x|] l1 IH]; cbn; [reflexivity|rewrite IH; reflexivity|exact IH]. Qed.

Lemma sent_revnos_app (K : watchKey) (c : chan) (t1 t2 : list titem) :
  sent_revnos K c (t1 ++ t2) = sent_revnos K c t1 ++ sent_revnos K c t2.
Proof.
  induction t1 as [|[c' chg|r rep] t1 IH]; cbn; [reflexivity| |exact IH].
  destruct (Nat.eqb c' c && key_eqb _ K); [rewrite IH; reflexivity|exact IH].
Qed.

Lemma pending_view (K : watchKey) (c : chan) (q : queueSel) (w : Watcher) (i : nat) :
  sent_revnos K c (match pending q w i with Some (c', chg) => [TSend c' chg] | None => [] end)
  = somes (opt_list (nth_error (qview K c (queue_of q w)) i)).
Proof.
  unfold pending, qview. rewrite nth_error_map.
  destruct (nth_error (queue_of q w) i) as [e|]; cbn [option_map opt_list]; [|reflexivity].
  unfold evview, sel, ev_has_ch. destruct (ev_ch e) as [c0|]; cbn [andb]; [|reflexivity].
  cbn [sent_revnos]. unfold change_of; cbn [C Id Revno].
  replace (mkKey (key_c (ev_key e)) (key_id (ev_key e))) with (ev_key e) by (destruct (ev_key e); reflexivity).
  destruct (Nat.eqb c0 c && key_eqb (ev_key e) K); reflexivity.
Qed.

Lemma queue_of_view (K : watchKey) (c : chan) (q : queueSel) (w w' : Watcher) :
  qview K c (syncEvents w') = qview K c (syncEvents w) ->
  qview K c (requestEvents w') = qview K c (requestEvents w) ->
  qview K c (queue_of q w') = qview K c (queue_of q w).
Proof. destruct q; cbn [queue_of]; auto. Qed.

Lemma reg_at_iff (K : watchKey) (c : chan) (lp : Z) (w : Watcher) :
  reg_at K c lp w = true <->
  (exists info, filter (has_ch c) (watches w K) = [info] /\ revno info = lp)
  /\ filter (has_ch c) (watches w (coll_key K)) = [].
Proof.
  unfold reg_at. split.
  - intro H. apply andb_prop in H. destruct H as [H1 H2].
    destruct (filter (has_ch c) (watches w K)) as [|i [|j l]]; try discriminate.
    destruct (filter (has_ch c) (watches w (coll_key K))); [|discriminate].
    apply Z.eqb_eq in H1. split; [exists i; auto|reflexivity].
  - intros [[info [H1 H2]] H3]. rewrite H1, H3, H2, Z.eqb_refl. reflexivity.
Qed.

Lemma filter_map_ch (c : chan) (f : watchInfo -> watchInfo) (l : list watchInfo) :
  (forall x, ch (f x) = ch x) -> filter (has_ch c) (map f l) = map f (filter (has_ch c) l).
Proof.
  intro Hf. induction l as [|x l IH]; [reflexivity|]. cbn [map filter]. rewrite IH.
  replace (has_ch c (f x)) with (has_ch c x) by (unfold has_ch; rewrite Hf; reflexivity).
  destruct (has_ch c x); reflexivity.
Qed.

Lemma pend_app (K : watchKey) (c : chan) (l1 l2 : list event) :
  pend K c (l1 ++ l2) = pend K c l1 ++ pend K c l2.
Proof. unfold pend, qview. rewrite map_app. apply somes_app. Qed.

Lemma pend_mk (K : watchKey) (c : chan) (key : watchKey) (r : Z) (l : list watchInfo) :
  pend K c (map (fun info => mkEvent (Some (ch info)) key r) l)
  = if key_eqb key K then map (fun _ => r) (filter (has_ch c) l) else [].
Proof.
  induction l as [|x l IH]; cbn [map filter]; [destruct (key_eqb key K); reflexivity|].
  unfold pend, qview in *. cbn [map]. unfold evview at 1, sel, ev_has_ch, has_ch. cbn [ev_ch ev_key ev_revno].
  destruct (Nat.eqb (ch x) c), (key_eqb key K); cbn [andb somes map]; rewrite IH; reflexivity.
Qed.

Lemma doc_cond_step (r0 last : Z) :
  doc_cond (normalize r0) last = true -> revno_step last (normalize r0) = true.
Proof.
  unfold doc_cond, revno_step, normalize. destruct (r0 <? 0) eqn:E.
  - cbn. auto.
  - destruct (last <? r0); [reflexivity|]. cbn. rewrite E. discriminate.
Qed.

Lemma set_revno_ch (r : Z) (info : watchInfo) :
  ch ((fun i => if doc_cond r (revno i) then set_revno i r else i) info) = ch info.
Proof. cbv beta. destruct (doc_cond r (revno info)); reflexivity. Qed.

Lemma queue_inv (K : watchKey) (c : chan) (last : Z) (p : pass) (key : watchKey) (r0 : Z) cs :
  key_id K <> None -> sync_inv K c last p -> existsb (key_eqb key) (seen p) = false ->
  sync_inv K c last (mkPass (queue (pw p) key (normalize r0)) (key :: seen p) cs).
Proof.
  intros HK [lp [Hreg [Hreq Hdis]]] Hs. set (r := normalize r0).
  set (f := fun i => if doc_cond r (revno i) then set_revno i r else i).
  apply reg_at_iff in Hreg. destruct Hreg as [[info [H1 H2]] H3].
  assert (Hq : queue (pw p) key r =
            mkWatcher (upd (watches (pw p)) key (map f (watches (pw p) key))) (needSync (pw p))
              (syncEvents (pw p)
               ++ map (fun info => mkEvent (Some (ch info)) key r)
                      (filter (fun info => keep info (key_id key)) (watches (pw p) (coll_key key)))
               ++ map (fun info => mkEvent (Some (ch info)) key r)
                      (filter (fun info => doc_cond r (revno info)) (watches (pw p) key)))
              (requestEvents (pw p)) (lastId (pw p))).
  { unfold queue. rewrite queue_doc_eq, queue_coll_eq. reflexivity. }
  unfold sync_inv. cbn [pw seen]. rewrite Hq. cbn [watches syncEvents requestEvents].
  rewrite !pend_app, !pend_mk.
  assert (HKc : K <> coll_key K) by (destruct K as [kc [ki|]]; [discriminate|contradiction]).
  destruct (key_eqb key K) eqn:Ek.
  - apply key_eqb_spec in Ek. subst key.
    assert (HnK : ~ In K (seen p)) by (intro HI; rewrite (existsb_key_in _ _ HI) in Hs; discriminate).
    destruct Hdis as [[-> Hsy] | [HI _]]; [|contradiction].
    rewrite (filter_comm (has_ch c) (fun i => keep i (key_id K))), H3.
    rewrite (filter_comm (has_ch c) (fun i => doc_cond r (revno i))), H1.
    cbn [filter]. rewrite H2.
    exists (revno (f info)). split; [|split; [exact Hreq|]].
    + apply reg_at_iff. cbn [watches]. split.
      * exists (f info). split; [|reflexivity].
        rewrite upd_same, filter_map_ch by apply set_revno_ch. rewrite H1. reflexivity.
      * rewrite upd_other by exact HKc. exact H3.
    + rewrite Hsy. unfold f. cbv beta. rewrite H2. destruct (doc_cond r last) eqn:Ed; cbn.
      * right. split; [left; reflexivity|split; [apply doc_cond_step; exact Ed|reflexivity]].
      * left. split; [exact H2|reflexivity].
  - apply key_eqb_false in Ek. rewrite !app_nil_r.
    exists lp. split; [|split; [exact Hreq|]].
    + apply reg_at_iff. cbn [watches]. split.
      * exists info. rewrite upd_other by exact Ek. split; [exact H1|exact H2].
      * unfold upd. destruct (key_eqb key (coll_key K)) eqn:Ec; [|exact H3].
        apply key_eqb_spec in Ec. rewrite Ec, filter_map_ch by apply set_revno_ch. rewrite H3. reflexivity.
    + destruct Hdis as [Hd | [HI Hd]]; [left; exact Hd|right; split; [right; exact HI|exact Hd]].
Qed.

Lemma walk_inv (K : watchKey) (c : chan) (last : Z) (name : string) (rows : list (ident * ident)) (p : pass) :
  key_id K <> None -> sync_inv K c last p -> sync_inv K c last (walk name rows p).
Proof.
  intro HK. revert p; induction rows as [|[di ri] rows IH]; intros p Hp; cbn [walk]; [exact Hp|].
  destruct (existsb (key_eqb (mkKey name di)) (seen p)) eqn:Es; [apply IH; exact Hp|].
  destruct (revno_of ri) as [r0|]; apply IH.
  - apply queue_inv; assumption.
  - destruct Hp as [lp [H1 [H2 H3]]]. exists lp. cbn [pw seen]. split; [exact H1|split; [exact H2|]].
    destruct H3 as [H3 | [HI H3]]; [left; exact H3|right; split; [right; exact HI|exact H3]].
Qed.

Lemma fold_inv (K : watchKey) (c : chan) (last : Z) (bs : list (string * cval)) (p : pass) :
  key_id K <> None -> sync_inv K c last p -> sync_inv K c last (fold_left process_batch bs p).
Proof.
  intro HK. revert p; induction bs as [|[name cv] bs IH]; intros p Hp; cbn [fold_left]; [exact Hp|].
  apply IH. unfold process_batch. destruct (parse_batch cv) as [d r].
  destruct (_ || _); [exact Hp|apply walk_inv; assumption].
Qed.

Lemma sync_entries_inv (K : watchKey) (c : chan) (last : Z) (last0 : ident) (first : bool)
    (es : list entry) (p : pass) :
  key_id K <> None -> sync_inv K c last p -> sync_inv K c last (sync_entries last0 first es p).
Proof.
  intro HK. revert first p; induction es as [|e es IH]; intros first p Hp; cbn [sync_entries]; [exact Hp|].
  assert (Hp1 : sync_inv K c last (if first then mkPass (set_lastId (pw p) (eid e)) (seen p) (cands p) else p))
    by (destruct first; exact Hp).
  destruct (ident_eqb (eid e) last0); [exact Hp1|].
  apply IH. apply fold_inv; assumption.
Qed.

Lemma quiet_iff (K : watchKey) (c : chan) (w : Watcher) :
  quiet K c w = true <-> pend K c (syncEvents w) = [] /\ pend K c (requestEvents w) = [].
Proof.
  unfold quiet. destruct (pend K c (syncEvents w)), (pend K c (requestEvents w)); cbn;
    split; intuition discriminate.
Qed.

Lemma sync_pass_inv (K : watchKey) (c : chan) (last : Z) (w : Watcher) (it : iterator) :
  key_id K <> None -> reg_at K c last w = true -> quiet K c w = true ->
  sync_inv K c last (sync_pass w it).
Proof.
  intros HK Hr Hq. apply quiet_iff in Hq. destruct Hq as [Hs Hrq].
  apply sync_entries_inv; [exact HK|].
  exists last. cbn [pw seen]. split; [exact Hr|split; [exact Hrq|left; split; [reflexivity|exact Hs]]].
Qed.

Lemma somes_rev (l : list (option Z)) : somes (rev l) = rev (somes l).
Proof.
  induction l as [|[x|] l IH]; cbn [rev somes]; [reflexivity| |].
  - rewrite somes_app, IH. reflexivity.
  - rewrite somes_app, IH. cbn. apply app_nil_r.
Qed.

Lemma prefix_single (s : list Z) (V : list Z) :
  is_prefix s V -> (V = [] \/ exists x, V = [x]) -> s = [] \/ s = V.
Proof.
  intros [t Ht] [-> | [x ->]].
  - left. destruct s; [reflexivity|discriminate].
  - destruct s as [|y [|z s]]; [left; reflexivity|right|discriminate].
    + destruct t; [rewrite app_nil_r in Ht; exact Ht|discriminate].
Qed.

Lemma reg_at_frame (K : watchKey) (c : chan) (lp : Z) (w : Watcher) (b : bool) :
  reg_at K c lp (set_needSync w b) = reg_at K c lp w.
Proof. reflexivity. Qed.

Lemma quiet_frame (K : watchKey) (c : chan) (w w' : Watcher) :
  qview K c (syncEvents w') = qview K c (syncEvents w) ->
  qview K c (requestEvents w') = qview K c (requestEvents w) ->
  quiet K c w' = quiet K c w.
Proof. intros E1 E2. unfold quiet, pend. rewrite E1, E2. reflexivity. Qed.

Lemma key_match_iff (k k1 : watchKey) :
  key_match k k1 = true <-> key_c k1 = key_c k /\ (key_id k = None \/ key_id k = key_id k1).
Proof.
  unfold key_match. destruct (String.eqb_spec (key_c k) (key_c k1)) as [Ec|Ec]; cbn.
  - destruct (key_id k) as [v|] eqn:Ei.
    + rewrite <- Ei, ident_eqb_spec. split; [intro H; split; auto|].
      intros [_ [H|H]]; [congruence|exact H].
    + split; intros _; auto.
  - split; [discriminate|]. intros [H _]. congruence.
Qed.

Lemma key_match_refl (k : watchKey) : key_match k k = true.
Proof. apply key_match_iff. split; [reflexivity|right; reflexivity]. Qed.

Lemma key_match_doc (key K : watchKey) :
  key_id K <> None -> key_match key K = true -> key = K \/ key = coll_key K.
Proof.
  intros HK H. apply key_match_iff in H. destruct H as [Hc [Hi|Hi]];
    destruct key as [kc ki], K as [Kc Ki]; cbn [key_c key_id] in *; subst.
  - right. reflexivity.
  - left. reflexivity.
Qed.

Lemma existsb_or_false {A} (f g : A -> bool) (l : list A) :
  existsb (fun x => f x || g x) l = false -> filter f l = [] /\ filter g l = [].
Proof.
  induction l as [|x l IH]; cbn [existsb filter]; [auto|]. intro H.
  apply orb_false_iff in H. destruct H as [H1 H2]. apply orb_false_iff in H1. destruct H1 as [Hf Hg].
  rewrite Hf, Hg. exact (IH H2).
Qed.

Lemma filter_single_split (c : chan) (a b : list watchInfo) (x info : watchInfo) :
  has_ch c x = true -> filter (has_ch c) (a ++ x :: b) = [info] -> filter (has_ch c) (a ++ b) = [].
Proof.
  intros Hx H. rewrite filter_app in *. cbn [filter] in H. rewrite Hx in H.
  destruct (filter (has_ch c) a) as [|y a']; cbn [app] in *.
  - injection H as _ Hb. exact Hb.
  - injection H as _ H'. destruct a'; discriminate.
Qed.

Lemma find_index_found (c : chan) (l : list watchInfo) (i : nat) :
  find_index (has_ch c) l = Some i -> filter (has_ch c) l <> [].
Proof.
  intro Ei. destruct (find_index_split _ _ _ Ei) as [a [x [b [Hl [_ Hx]]]]]. subst l.
  rewrite filter_app. cbn [filter]. rewrite Hx. destruct (filter (has_ch c) a); discriminate.
Qed.

Lemma pend_purge_self (K : watchKey) (c : chan) (l : list event) : pend K c (purge K c l) = [].
Proof.
  assert (H0 : forall e, evview K c
            (if key_match K (ev_key e) && match ev_ch e with Some c' => Nat.eqb c' c | None => false end
             then mkEvent None (ev_key e) (ev_revno e) else e) = None).
  { intro e. unfold evview, sel, ev_has_ch.
    destruct (ev_ch e) as [c0|] eqn:Ec; [|cbn; destruct (key_match K (ev_key e)); cbn; rewrite ?Ec; reflexivity].
    destruct (Nat.eqb c0 c) eqn:Ecc;
      [|destruct (key_match K (ev_key e)); cbn [andb]; rewrite ?Ec, ?Ecc; reflexivity].
    destruct (key_match K (ev_key e)) eqn:Em; cbn [andb ev_ch]; [reflexivity|rewrite Ec, Ecc; cbn [andb]].
    destruct (key_eqb (ev_key e) K) eqn:Ek; [|reflexivity].
    apply key_eqb_spec in Ek. rewrite Ek, key_match_refl in Em. discriminate. }
  unfold pend, qview, purge. rewrite map_map. induction l as [|e l IH]; [reflexivity|].
  cbn [map]. rewrite H0. exact IH.
Qed.

Lemma qview_purge_other (K : watchKey) (c c' : chan) (key : watchKey) (l : list event) :
  key_id K <> None -> key <> K -> key <> coll_key K -> qview K c (purge key c' l) = qview K c l.
Proof.
  intros HK H1 H2. unfold qview, purge. rewrite map_map. apply map_ext. intro e.
  destruct (key_match key (ev_key e)) eqn:Em; cbn [andb]; [|reflexivity].
  destruct (ev_ch e) as [c0|] eqn:Ec; [|reflexivity].
  destruct (Nat.eqb c0 c'); [|reflexivity].
  unfold evview, sel, ev_has_ch. cbn [ev_ch ev_key]. rewrite Ec.
  destruct (key_eqb (ev_key e) K) eqn:Ek; [|destruct (Nat.eqb c0 c); reflexivity].
  apply key_eqb_spec in Ek. rewrite Ek in Em. destruct (key_match_doc _ _ HK Em); contradiction.
Qed.

Lemma kframe_refl (K : watchKey) (c : chan) (w : Watcher) : kframe K c w w.
Proof. split; [reflexivity|split; [reflexivity|split; auto]]. Qed.

Lemma kframe_trans (K : watchKey) (c : chan) (w1 w2 w3 : Watcher) :
  kframe K c w1 w2 -> kframe K c w2 w3 -> kframe K c w1 w3.
Proof.
  intros [A1 [A2 [A3 A4]]] [B1 [B2 [B3 B4]]]. split; [congruence|split; [congruence|split; auto]].
Qed.

Lemma same_kframe (K : watchKey) (c : chan) (w w' : Watcher) :
  qview K c (syncEvents w') = qview K c (syncEvents w) ->
  qview K c (requestEvents w') = qview K c (requestEvents w) ->
  watches w' K = watches w K -> watches w' (coll_key K) = watches w (coll_key K) ->
  kframe K c w w'.
Proof.
  intros E1 E2 E3 E4. split; [exact E1|split; [exact E2|split]].
  - intro lp. unfold reg_at. rewrite E3, E4. auto.
  - unfold gone. rewrite E3, E4. auto.
Qed.

Lemma perm_kframe (K : watchKey) (c : chan) (w w' : Watcher) :
  qview K c (syncEvents w') = qview K c (syncEvents w) ->
  qview K c (requestEvents w') = qview K c (requestEvents w) ->
  (forall k, Permutation (filter (has_ch c) (watches w' k)) (filter (has_ch c) (watches w k))) ->
  kframe K c w w'.
Proof.
  intros E1 E2 P. split; [exact E1|split; [exact E2|split]].
  - intros lp Hr. rewrite (reg_at_perm K c lp w w' P). exact Hr.
  - intros [G1 G2]. split.
    + pose proof (P K) as PK. rewrite G1 in PK. apply Permutation_sym, Permutation_nil in PK. exact PK.
    + pose proof (P (coll_key K)) as PK. rewrite G2 in PK.
      apply Permutation_sym, Permutation_nil in PK. exact PK.
Qed.

Lemma tracked_kframe (K : watchKey) (c : chan) (w w' : Watcher) :
  tracked K c w -> kframe K c w w' -> tracked K c w'.
Proof. intros [[lp H]|H] [_ [_ [F3 F4]]]; [left; exists lp; auto|right; auto]. Qed.

Lemma silent_kframe (K : watchKey) (c : chan) (w w' : Watcher) :
  silent K c w -> kframe K c w w' -> silent K c w'.
Proof.
  intros [G Q] [F1 [F2 [_ F4]]]. split; [auto|]. rewrite (quiet_frame K c w w' F1 F2). exact Q.
Qed.

Lemma silent_tracked (K : watchKey) (c : chan) (w : Watcher) : silent K c w -> tracked K c w.
Proof. intros [G _]. right. exact G. Qed.

Lemma tracked_coll (K : watchKey) (c : chan) (w : Watcher) :
  tracked K c w -> filter (has_ch c) (watches w (coll_key K)) = [].
Proof. intros [[lp H]|[_ H]]; [apply reg_at_iff in H; apply H|exact H]. Qed.

(** A request not naming [c] changes neither the queue views for [c] nor,
    up to order, the registrations using [c]. *)
Lemma handle_perm (c : chan) (w w' : Watcher) (r : req) rep :
  handle w r = Some (w', rep) -> names_ch c r = false ->
  (forall K, qview K c (syncEvents w') = qview K c (syncEvents w)
             /\ qview K c (requestEvents w') = qview K c (requestEvents w))
  /\ (forall k, Permutation (filter (has_ch c) (watches w' k)) (filter (has_ch c) (watches w k))).
Proof.
  intros Hh Hn. pose proof (names_ch_false c r Hn) as Hc.
  destruct r as [|key info|key c'|coll ids wch]; cbn [handle] in Hh.
  - inversion Hh; subst. split; [intro K; split; reflexivity|intro k; reflexivity].
  - destruct (existsb _ _); [discriminate|]. inversion Hh; subst.
    split; [intro K; split; reflexivity|]. intro k. cbn [watches set_watches]. unfold upd.
    destruct (key_eqb key k) eqn:E; [|reflexivity].
    apply key_eqb_spec in E; subst k. rewrite filter_app. cbn.
    unfold has_ch at 2. specialize (Hc (ch info) eq_refl). apply Nat.eqb_neq in Hc. rewrite Hc.
    rewrite app_nil_r. reflexivity.
  - destruct (find_index (has_ch c') (watches w key)) as [i|] eqn:Ei; [|discriminate].
    inversion Hh; subst. specialize (Hc c' eq_refl). cbn [syncEvents requestEvents].
    split; [intro K; rewrite !qview_purge by exact Hc; split; reflexivity|].
    intro k. cbn [watches]. unfold upd.
    destruct (key_eqb key k) eqn:E; [|reflexivity].
    apply key_eqb_spec in E; subst k.
    destruct (find_index_split _ _ _ Ei) as [a [x [b [Hl [Hla Hx]]]]].
    rewrite Hl, <- Hla. rewrite (Permutation_filter' _ _ _ (swap_remove_perm a b x)).
    rewrite !filter_app. cbn [filter].
    replace (has_ch c x) with false; [reflexivity|].
    unfold has_ch in *. apply Nat.eqb_eq in Hx. rewrite Hx.
    symmetry. apply Nat.eqb_neq. exact Hc.
  - specialize (Hc wch eq_refl).
    destruct (find_conflict _ _ _ _); inversion Hh; subst;
      [split; [intro K; split; reflexivity|intro k; reflexivity]|].
    unfold set_watches; cbn [syncEvents requestEvents watches].
    split; [intro K; split; reflexivity|]. intro k.
    rewrite add_all_eq, filter_app, filter_repeat_other by exact Hc.
    rewrite app_nil_r. reflexivity.
Qed.

(** A request that does not register [c] again on [K] or its collection
    key either keeps the view of [(K, c)] (a frame step), or is the
    [Unwatch] of [(K, c)] and leaves it silent. *)
Lemma handle_step (K : watchKey) (c : chan) (w w' : Watcher) (r : req) (rep : reply) :
  key_id K <> None -> tracked K c w -> rereg K c r = false -> handle w r = Some (w', rep) ->
  kframe K c w w' \/ silent K c w'.
Proof.
  intros HK Ht Hr Hh. pose proof (tracked_coll K c w Ht) as Hcoll.
  assert (HKc : K <> coll_key K) by (destruct K as [kc [ki|]]; [discriminate|contradiction]).
  destruct (names_ch c r) eqn:Hn.
  2: { left. destruct (handle_perm c w w' r rep Hh Hn) as [Hq Hp]. destruct (Hq K) as [E1 E2].
       exact (perm_kframe K c w w' E1 E2 Hp). }
  destruct r as [|key info|key c'|coll ids wch]; cbn [names_ch req_chan] in Hn; [discriminate| | |];
    apply Nat.eqb_eq in Hn; cbn [rereg] in Hr; cbn [handle] in Hh.
  - rewrite Hn, Nat.eqb_refl in Hr. cbn [andb] in Hr. apply orb_false_iff in Hr. destruct Hr as [H1 H2].
    apply key_eqb_false in H1, H2.
    destruct (existsb _ _); [discriminate|]. inversion Hh; subst w' rep. left.
    apply same_kframe; cbn [syncEvents requestEvents watches set_watches]; try reflexivity;
      apply upd_other; assumption.
  - subst c'. destruct (find_index (has_ch c) (watches w key)) as [i|] eqn:Ei; [|discriminate].
    inversion Hh; subst w' rep; clear Hh.
    destruct (key_eqb key K) eqn:EK.
    + apply key_eqb_spec in EK; subst key. right. destruct Ht as [[lp Hreg]|[Hg _]].
      * apply reg_at_iff in Hreg. destruct Hreg as [[info [H1 _]] H3].
        destruct (find_index_split _ _ _ Ei) as [a [x [b [Hl [Hla Hx]]]]].
        split; [split|].
        -- cbn [watches]. rewrite upd_same, Hl, <- Hla.
           pose proof (Permutation_filter' (has_ch c) _ _ (swap_remove_perm a b x)) as P.
           rewrite Hl in H1. rewrite (filter_single_split c a b x info Hx H1) in P.
           apply Permutation_nil. apply Permutation_sym. exact P.
        -- cbn [watches]. rewrite upd_other by exact HKc. exact H3.
        -- apply quiet_iff. cbn [syncEvents requestEvents]. rewrite !pend_purge_self. split; reflexivity.
      * exfalso. exact (find_index_found c _ i Ei Hg).
    + apply key_eqb_false in EK. destruct (key_eqb key (coll_key K)) eqn:EC.
      * exfalso. apply key_eqb_spec in EC; subst key. exact (find_index_found c _ i Ei Hcoll).
      * apply key_eqb_false in EC. left.
        apply same_kframe; cbn [syncEvents requestEvents watches];
          [apply qview_purge_other; assumption|apply qview_purge_other; assumption
          |apply upd_other; exact EK|apply upd_other; exact EC].
  - subst wch. rewrite Nat.eqb_refl in Hr. cbn [andb] in Hr.
    destruct (existsb_or_false _ _ _ Hr) as [F1 F2].
    destruct (find_conflict _ _ _ _); inversion Hh; subst w' rep; left; [apply kframe_refl|].
    apply same_kframe; unfold set_watches; cbn [syncEvents requestEvents watches]; try reflexivity;
      rewrite add_all_eq; unfold occurrences; [rewrite F1|rewrite F2]; cbn [length repeat]; apply app_nil_r.
Qed.

Lemma somes_nil_nth (l : list (option Z)) (i : nat) :
  somes l = [] -> somes (opt_list (nth_error l i)) = [].
Proof.
  revert i; induction l as [|[x|] l IH]; intros [|i] H; cbn in *; try discriminate; auto.
Qed.

Lemma pending_silent (K : watchKey) (c : chan) (q : queueSel) (w : Watcher) (i : nat) :
  quiet K c w = true ->
  sent_revnos K c (match pending q w i with Some (c', chg) => [TSend c' chg] | None => [] end) = [].
Proof.
  intro H. rewrite pending_view. apply somes_nil_nth. apply quiet_iff in H.
  destruct q; apply H.
Qed.

Lemma silent_deliver (K : watchKey) (c : chan) (q : queueSel) (i : nat) (acts : list fact) (w : Watcher) :
  key_id K <> None -> silent K c w -> forallb (fact_ok K c) acts = true ->
  sfrag K c (deliver q i w acts).
Proof.
  intro HK. revert w; induction acts as [|a acts IH]; intros w Hs Ha; cbn [deliver];
    pose proof (pending_silent K c q w i (proj2 Hs)) as Hp.
  - destruct (pending q w i) as [[c' chg]|];
      (split; [reflexivity|split; [discriminate|split; [exact Hp|exact Hs]]]).
  - cbn [forallb] in Ha. apply andb_prop in Ha. destruct Ha as [Ha0 Ha].
    destruct (pending q w i) as [[c' chg]|];
      [|split; [cbn; rewrite Ha0; exact Ha|split; [discriminate|split; [exact Hp|exact Hs]]]].
    destruct a as [|r|]; cbn [fact_ok] in Ha0; [| |discriminate].
    + split; [exact Ha|split; [discriminate|split; [exact Hp|exact Hs]]].
    + apply negb_true_iff in Ha0.
      destruct (handle w r) as [[w' rep]|] eqn:Hh;
        [|split; [exact Ha|split; [discriminate|split; [reflexivity|exact Hs]]]].
      assert (Hs' : silent K c w')
        by (destruct (handle_step K c w w' r rep HK (silent_tracked K c w Hs) Ha0 Hh) as [F|S];
            [exact (silent_kframe K c w w' Hs F)|exact S]).
      destruct (IH w' Hs' Ha) as [G1 [G2 [G3 G4]]].
      split; [exact G1|split; [exact G2|split; [exact G3|exact G4]]].
Qed.

Lemma silent_fthen (K : watchKey) (c : chan) (r : fres) (g : Watcher -> list fact -> fres) :
  sfrag K c r ->
  (forall w' a', silent K c w' -> forallb (fact_ok K c) a' = true -> sfrag K c (g w' a')) ->
  sfrag K c (fthen r g).
Proof.
  intros [H1 [H2 [H3 H4]]] Hg. unfold fthen. destruct (f_status r) eqn:Es.
  - destruct (Hg (f_w r) (f_acts r) H4 H1) as [G1 [G2 [G3 G4]]].
    split; [exact G1|split; [exact G2|split; [|exact G4]]].
    cbn [f_trace]. rewrite sent_revnos_app, H3, G3. reflexivity.
  - contradiction.
  - split; [exact H1|split; [congruence|split; [exact H3|exact H4]]].
Qed.

Lemma silent_flush_sync (K : watchKey) (c : chan) (n : nat) (w : Watcher) (acts : list fact) :
  key_id K <> None -> silent K c w -> forallb (fact_ok K c) acts = true ->
  sfrag K c (flush_sync n w acts).
Proof.
  intro HK. revert w acts; induction n as [|n IH]; intros w acts Hs Ha; cbn [flush_sync].
  - split; [exact Ha|split; [discriminate|split; [reflexivity|exact Hs]]].
  - apply silent_fthen; [apply silent_deliver; assumption|].
    intros w' a' Hs' Ha'. apply IH; assumption.
Qed.

Lemma silent_flush_req (K : watchKey) (c : chan) (fuel i : nat) (w : Watcher) (acts : list fact) :
  key_id K <> None -> silent K c w -> forallb (fact_ok K c) acts = true ->
  sfrag K c (flush_req fuel i w acts).
Proof.
  intro HK. revert i w acts; induction fuel as [|f IH]; intros i w acts Hs Ha; cbn [flush_req].
  - split; [exact Ha|split; [discriminate|split; [reflexivity|exact Hs]]].
  - destruct (Nat.ltb i (length (requestEvents w)));
      [|split; [exact Ha|split; [discriminate|split; [reflexivity|exact Hs]]]].
    apply silent_fthen; [apply silent_deliver; assumption|].
    intros w' a' Hs' Ha'. apply IH; assumption.
Qed.

Lemma silent_flush (K : watchKey) (c : chan) (w : Watcher) (acts : list fact) :
  key_id K <> None -> silent K c w -> forallb (fact_ok K c) acts = true -> sfrag K c (flush w acts).
Proof.
  intros HK Hs Ha. unfold flush.
  apply silent_fthen; [apply silent_fthen; [apply silent_flush_sync; assumption|]|].
  - intros w' a' Hs' Ha'. apply silent_flush_req; assumption.
  - intros w' a' [G _] Ha'.
    split; [exact Ha'|split; [discriminate|split; [reflexivity|split; [exact G|reflexivity]]]].
Qed.

Lemma view_base (K : watchKey) (c : chan) (w : Watcher) (acts : list fact) (tr : list titem) (V : list Z) :
  forallb (fact_ok K c) acts = true -> sent_revnos K c tr = V ->
  fview_ok K c w (mkFres FOk w acts tr) V.
Proof.
  intros Ha Hs. split; [exact Ha|split; [discriminate|split]].
  - exists []. cbn [f_trace]. rewrite app_nil_r. exact Hs.
  - left. split; [apply kframe_refl|intros _; exact Hs].
Qed.

Lemma view_panic (K : watchKey) (c : chan) (w : Watcher) (acts : list fact) (V : list Z) :
  forallb (fact_ok K c) acts = true -> fview_ok K c w (mkFres FPanic w acts []) V.
Proof.
  intro Ha. split; [exact Ha|split; [discriminate|split]].
  - exists V. reflexivity.
  - left. split; [apply kframe_refl|discriminate].
Qed.

Lemma view_silent (K : watchKey) (c : chan) (w : Watcher) (r : fres) (V : list Z) :
  sfrag K c r -> fview_ok K c w r V.
Proof.
  intros [H1 [H2 [H3 H4]]]. split; [exact H1|split; [exact H2|split]].
  - rewrite H3. exists V. reflexivity.
  - right. exact H4.
Qed.

Lemma view_handled (K : watchKey) (c : chan) (w w' : Watcher) (r : req) (rep : reply) (res : fres) (V : list Z) :
  kframe K c w w' -> fview_ok K c w' res V ->
  fview_ok K c w (mkFres (f_status res) (f_w res) (f_acts res) (THandled r rep :: f_trace res)) V.
Proof.
  intros F [H1 [H2 [H3 H4]]]. split; [exact H1|split; [exact H2|split; [exact H3|]]].
  destruct H4 as [[Fk Fe]|Hs]; [left; split; [exact (kframe_trans K c w w' (f_w res) F Fk)|exact Fe]|].
  right. exact Hs.
Qed.

Lemma deliver_view (K : watchKey) (c : chan) (q : queueSel) (i : nat) (acts : list fact) (w : Watcher) :
  key_id K <> None -> tracked K c w -> forallb (fact_ok K c) acts = true ->
  fview_ok K c w (deliver q i w acts) (somes (opt_list (nth_error (qview K c (queue_of q w)) i))).
Proof.
  intro HK. revert w; induction acts as [|a acts IH]; intros w Ht Ha; cbn [deliver];
    pose proof (pending_view K c q w i) as Hv.
  - destruct (pending q w i) as [[c' chg]|]; apply view_base; auto.
  - cbn [forallb] in Ha. apply andb_prop in Ha. destruct Ha as [Ha0 Ha].
    destruct (pending q w i) as [[c' chg]|]; [|apply view_base; [cbn; rewrite Ha0; exact Ha|exact Hv]].
    destruct a as [|r|]; cbn [fact_ok] in Ha0; [apply view_base; auto| |discriminate].
    apply negb_true_iff in Ha0.
    destruct (handle w r) as [[w' rep]|] eqn:Hh; [|apply view_panic; exact Ha].
    destruct (handle_step K c w w' r rep HK Ht Ha0 Hh) as [F|S].
    + pose proof (IH w' (tracked_kframe K c w w' Ht F) Ha) as G.
      pose proof F as [F1 [F2 _]].
      rewrite (queue_of_view K c q w w' F1 F2) in G. exact (view_handled K c w w' r rep _ _ F G).
    + apply view_silent. destruct (silent_deliver K c q i acts w' HK S Ha) as [G1 [G2 [G3 G4]]].
      split; [exact G1|split; [exact G2|split; [exact G3|exact G4]]].
Qed.

Lemma fthen_view (K : watchKey) (c : chan) (w : Watcher) (r : fres) (g : Watcher -> list fact -> fres)
    (V1 V2 V : list Z) :
  tracked K c w -> fview_ok K c w r V1 ->
  (forall w' a', kframe K c w w' -> tracked K c w' -> forallb (fact_ok K c) a' = true ->
                 fview_ok K c w' (g w' a') V2) ->
  (forall w' a', silent K c w' -> forallb (fact_ok K c) a' = true -> sfrag K c (g w' a')) ->
  V = V1 ++ V2 -> fview_ok K c w (fthen r g) V.
Proof.
  intros Ht [H1 [H2 [H3 H4]]] Hg Hs ->. unfold fthen.
  destruct (f_status r) eqn:Es.
  - destruct H4 as [[Hk He]|Hsil].
    + specialize (He eq_refl).
      destruct (Hg (f_w r) (f_acts r) Hk (tracked_kframe K c w _ Ht Hk) H1) as [G1 [G2 [G3 G4]]].
      split; [exact G1|split; [exact G2|split]]; cbn [f_trace f_w f_status]; rewrite sent_revnos_app, He.
      * destruct G3 as [s Hs']. exists s. rewrite <- app_assoc, Hs'. reflexivity.
      * destruct G4 as [[Gk Ge]|Gs].
        -- left. split; [exact (kframe_trans K c w _ _ Hk Gk)|intro E; rewrite (Ge E); reflexivity].
        -- right. exact Gs.
    + destruct (Hs (f_w r) (f_acts r) Hsil H1) as [G1 [G2 [G3 G4]]].
      split; [exact G1|split; [exact G2|split]]; cbn [f_trace f_w f_status];
        rewrite sent_revnos_app, G3, app_nil_r.
      * destruct H3 as [s Hs']. exists (s ++ V2). rewrite app_assoc, Hs'. reflexivity.
      * right. exact G4.
  - contradiction.
  - split; [exact H1|split; [congruence|split]].
    + destruct H3 as [s Hs']. exists (s ++ V2). rewrite app_assoc, Hs'. reflexivity.
    + destruct H4 as [[Hk He]|Hsil]; [left; split; [exact Hk|intro E; congruence]|right; exact Hsil].
Qed.

Lemma flush_sync_view (K : watchKey) (c : chan) (n : nat) (w : Watcher) (acts : list fact) :
  key_id K <> None -> tracked K c w -> forallb (fact_ok K c) acts = true ->
  fview_ok K c w (flush_sync n w acts) (somes (rev (firstn n (qview K c (syncEvents w))))).
Proof.
  intro HK. revert w acts; induction n as [|n IH]; intros w acts Ht Ha; cbn [flush_sync].
  - apply view_base; [exact Ha|reflexivity].
  - eapply fthen_view with (V2 := somes (rev (firstn n (qview K c (syncEvents w)))));
      [exact Ht|apply (deliver_view K c QSync n acts w HK Ht Ha)| | |].
    + intros w' a' [E1 _] Ht' Ha'. rewrite <- E1. apply IH; assumption.
    + intros w' a' Hs' Ha'. apply silent_flush_sync; assumption.
    + rewrite firstn_S_opt, rev_app_distr, somes_app. cbn [queue_of].
      destruct (nth_error (qview K c (syncEvents w)) n); reflexivity.
Qed.

Lemma flush_req_view (K : watchKey) (c : chan) (fuel i : nat) (w : Watcher) (acts : list fact) :
  key_id K <> None -> (length (requestEvents w) <= i + fuel)%nat -> tracked K c w ->
  forallb (fact_ok K c) acts = true ->
  fview_ok K c w (flush_req fuel i w acts) (somes (skipn i (qview K c (requestEvents w)))).
Proof.
  intro HK. revert i w acts; induction fuel as [|f IH]; intros i w acts Hl Ht Ha; cbn [flush_req].
  - apply view_base; [exact Ha|]. rewrite skipn_all2; [reflexivity|].
    unfold qview. rewrite length_map. lia.
  - destruct (Nat.ltb i (length (requestEvents w))) eqn:Elt.
    + apply Nat.ltb_lt in Elt.
      destruct (nth_error (qview K c (requestEvents w)) i) as [x|] eqn:Ex;
        [|apply nth_error_None in Ex; unfold qview in Ex; rewrite length_map in Ex; lia].
      eapply fthen_view with (V2 := somes (skipn (S i) (qview K c (requestEvents w))));
        [exact Ht|apply (deliver_view K c QRequest i acts w HK Ht Ha)| | |].
      * intros w' a' [_ [E2 _]] Ht' Ha'. rewrite <- E2. apply IH; [|exact Ht'|exact Ha'].
        apply (f_equal (@length _)) in E2. unfold qview in E2. rewrite !length_map in E2. lia.
      * intros w' a' Hs' Ha'. apply silent_flush_req; assumption.
      * cbn [queue_of]. rewrite Ex, (skipn_nth_error _ _ _ Ex).
        change (x :: skipn (S i) (qview K c (requestEvents w)))
          with ([x] ++ skipn (S i) (qview K c (requestEvents w))).
        rewrite somes_app. reflexivity.
    + apply Nat.ltb_ge in Elt. apply view_base; [exact Ha|].
      rewrite skipn_all2; [reflexivity|]. unfold qview. rewrite length_map. lia.
Qed.

Lemma flush_view (K : watchKey) (c : chan) (w : Watcher) (acts : list fact) :
  key_id K <> None -> tracked K c w -> forallb (fact_ok K c) acts = true ->
  f_status (flush w acts) <> FDead
  /\ forallb (fact_ok K c) (f_acts (flush w acts)) = true
  /\ is_prefix (sent_revnos K c (f_trace (flush w acts)))
               (somes (rev (qview K c (syncEvents w))) ++ pend K c (requestEvents w))
  /\ (f_status (flush w acts) = FOk ->
      (sent_revnos K c (f_trace (flush w acts))
         = somes (rev (qview K c (syncEvents w))) ++ pend K c (requestEvents w)
       /\ (forall lp, reg_at K c lp w = true -> reg_at K c lp (f_w (flush w acts)) = true)
       /\ (gone K c w -> gone K c (f_w (flush w acts)))
       /\ quiet K c (f_w (flush w acts)) = true)
      \/ silent K c (f_w (flush w acts))).
Proof.
  intros HK Ht Ha.
  assert (Hin : fview_ok K c w
            (fthen (flush_sync (length (syncEvents w)) w acts)
                   (fun w1 acts1 => flush_req (length (requestEvents w1)) 0 w1 acts1))
            (somes (rev (qview K c (syncEvents w))) ++ pend K c (requestEvents w))).
  { eapply fthen_view with (V2 := pend K c (requestEvents w)); [exact Ht|apply flush_sync_view; assumption| | |].
    - intros w' a' [_ [E2 _]] Ht' Ha'. unfold pend. rewrite <- E2.
      apply (flush_req_view K c _ 0 w' a'); [exact HK|lia|exact Ht'|exact Ha'].
    - intros w' a' Hs' Ha'. apply silent_flush_req; assumption.
    - rewrite firstn_all2 with (l := qview K c (syncEvents w)) (n := length (syncEvents w))
        by (unfold qview; rewrite length_map; lia).
      reflexivity. }
  unfold flush. revert Hin.
  generalize (fthen (flush_sync (length (syncEvents w)) w acts)
                    (fun w1 acts1 => flush_req (length (requestEvents w1)) 0 w1 acts1)).
  intros r [H1 [H2 [H3 H4]]]. unfold fthen.
  destruct (f_status r) eqn:Es; cbn [f_status f_w f_acts f_trace].
  - rewrite app_nil_r. split; [discriminate|split; [exact H1|split; [exact H3|intros _]]].
    destruct H4 as [[[F1 [F2 [F3 F4]]] He]|[G Q]].
    + left. split; [exact (He eq_refl)|split; [exact F3|split; [exact F4|reflexivity]]].
    + right. split; [exact G|reflexivity].
  - contradiction.
  - split; [congruence|split; [exact H1|split; [exact H3|intro E; congruence]]].
Qed.

Lemma queue_silent (K : watchKey) (c : chan) (w : Watcher) (key : watchKey) (r : Z) :
  silent K c w -> silent K c (queue w key r).
Proof.
  intros [[G1 G2] Hq]. apply quiet_iff in Hq. destruct Hq as [Hs Hr].
  set (f := fun i => if doc_cond r (revno i) then set_revno i r else i).
  assert (Hq : queue w key r =
            mkWatcher (upd (watches w) key (map f (watches w key))) (needSync w)
              (syncEvents w
               ++ map (fun info => mkEvent (Some (ch info)) key r)
                      (filter (fun info => keep info (key_id key)) (watches w (coll_key key)))
               ++ map (fun info => mkEvent (Some (ch info)) key r)
                      (filter (fun info => doc_cond r (revno info)) (watches w key)))
              (requestEvents w) (lastId w)).
  { unfold queue. rewrite queue_doc_eq, queue_coll_eq. reflexivity. }
  rewrite Hq. split; [split|apply quiet_iff; split]; cbn [watches syncEvents requestEvents].
  - unfold upd. destruct (key_eqb key K) eqn:E; [|exact G1].
    apply key_eqb_spec in E. subst key. rewrite filter_map_ch by apply set_revno_ch. rewrite G1. reflexivity.
  - unfold upd. destruct (key_eqb key (coll_key K)) eqn:E; [|exact G2].
    apply key_eqb_spec in E. rewrite E, filter_map_ch by apply set_revno_ch. rewrite G2. reflexivity.
  - rewrite !pend_app, !pend_mk, Hs. destruct (key_eqb key K) eqn:E; [|reflexivity].
    apply key_eqb_spec in E. subst key.
    rewrite (filter_comm (has_ch c) (fun i => keep i (key_id K))), G2.
    rewrite (filter_comm (has_ch c) (fun i => doc_cond r (revno i))), G1. reflexivity.
  - exact Hr.
Qed.

Lemma walk_silent (K : watchKey) (c : chan) (name : string) (rows : list (ident * ident)) (p : pass) :
  silent K c (pw p) -> silent K c (pw (walk name rows p)).
Proof.
  revert p; induction rows as [|[di ri] rows IH]; intros p Hp; cbn [walk]; [exact Hp|].
  destruct (existsb _ (seen p)); [apply IH; exact Hp|].
  destruct (revno_of ri); apply IH; cbn [pw]; [apply queue_silent; exact Hp|exact Hp].
Qed.

Lemma fold_silent (K : watchKey) (c : chan) (bs : list (string * cval)) (p : pass) :
  silent K c (pw p) -> silent K c (pw (fold_left process_batch bs p)).
Proof.
  revert p; induction bs as [|[name cv] bs IH]; intros p Hp; cbn [fold_left]; [exact Hp|].
  apply IH. unfold process_batch. destruct (parse_batch cv) as [d r].
  destruct (_ || _); [exact Hp|apply walk_silent; exact Hp].
Qed.

Lemma entries_silent (K : watchKey) (c : chan) (last0 : ident) (first : bool) (es : list entry) (p : pass) :
  silent K c (pw p) -> silent K c (pw (sync_entries last0 first es p)).
Proof.
  revert first p; induction es as [|e es IH]; intros first p Hp; cbn [sync_entries]; [exact Hp|].
  assert (Hp1 : silent K c (pw (if first then mkPass (set_lastId (pw p) (eid e)) (seen p) (cands p) else p)))
    by (destruct first; exact Hp).
  destruct (ident_eqb (eid e) last0); [exact Hp1|].
  apply IH, fold_silent, Hp1.
Qed.

Lemma sync_pass_silent (K : watchKey) (c : chan) (w : Watcher) (it : iterator) :
  silent K c w -> silent K c (pw (sync_pass w it)).
Proof. intro H. apply entries_silent. exact H. Qed.

Lemma kstate_tracked (K : watchKey) (c : chan) (last : Z) (w : Watcher) :
  kstate K c last w -> tracked K c w.
Proof. intros [[H _]|[G _]]; [left; exists last; exact H|right; exact G]. Qed.

Lemma kstate_kframe (K : watchKey) (c : chan) (last : Z) (w w' : Watcher) :
  kstate K c last w -> kframe K c w w' -> kstate K c last w'.
Proof.
  intros [[Hr Q]|Hs] F.
  - left. pose proof F as [F1 [F2 [F3 _]]].
    split; [exact (F3 _ Hr)|rewrite (quiet_frame K c w w' F1 F2); exact Q].
  - right. exact (silent_kframe K c w w' Hs F).
Qed.

(** A flush from a state with nothing queued for [(K, c)] sends nothing
    for it and, when it completes, leaves a state of the same kind. *)
Lemma flush_kstate (K : watchKey) (c : chan) (last : Z) (w : Watcher) (acts : list fact) :
  key_id K <> None -> kstate K c last w -> forallb (fact_ok K c) acts = true ->
  f_status (flush w acts) <> FDead
  /\ forallb (fact_ok K c) (f_acts (flush w acts)) = true
  /\ sent_revnos K c (f_trace (flush w acts)) = []
  /\ (f_status (flush w acts) = FOk -> kstate K c last (f_w (flush w acts))).
Proof.
  intros HK Hst Ha.
  destruct (flush_view K c w acts HK (kstate_tracked K c last w Hst) Ha) as [F1 [F2 [F3 F4]]].
  assert (Hq : quiet K c w = true) by (destruct Hst as [[_ Q]|[_ Q]]; exact Q).
  apply quiet_iff in Hq. destruct Hq as [Hs Hr].
  rewrite somes_rev in F3, F4. fold (pend K c (syncEvents w)) in F3, F4.
  rewrite Hs, Hr in F3, F4. cbn [rev app] in F3, F4.
  split; [exact F1|split; [exact F2|split]].
  - destruct F3 as [t Ht]. apply app_eq_nil in Ht. apply Ht.
  - intro E. destruct (F4 E) as [[_ [R [G Q]]]|S]; [|right; exact S].
    destruct Hst as [[Hr0 _]|[G0 _]];
      [left; split; [exact (R _ Hr0)|exact Q]|right; split; [exact (G G0)|exact Q]].
Qed.

(** What the top of one loop iteration does to [(K, c)]: the changes it
    sends continue a [revno_chain] from [last], and the loop goes on from a
    registered, quiet state or a silent one. *)
Lemma top_chain (K : watchKey) (c : chan) (last : Z) (w : Watcher) (its : list iterator) (acts : list fact) :
  key_id K <> None -> kstate K c last w -> forallb (fact_ok K c) acts = true ->
  match loop_top w its acts with
  | TopStop _ _ => True
  | TopPanic _ tr => revno_chain last (sent_revnos K c tr) = true
  | TopGo w1 _ acts1 tr =>
      forallb (fact_ok K c) acts1 = true
      /\ exists lp, kstate K c lp w1
           /\ forall S, revno_chain lp S = true -> revno_chain last (sent_revnos K c tr ++ S) = true
  end.
Proof.
  intros HK Hst Ha. unfold loop_top.
  destruct (needSync w); [|split; [exact Ha|exists last; split; [exact Hst|intros S HS; exact HS]]].
  destruct (next_iter its) as [it its'].
  unfold sync. destruct (iclose it) as [e|]; [exact I|].
  destruct Hst as [[Hr Hq]|Hs].
  - destruct (sync_pass_inv K c last w it HK Hr Hq) as [lp [Hr1 [Hq1 Hdis]]].
    destruct (flush_view K c (pw (sync_pass w it)) acts HK (or_introl (ex_intro _ lp Hr1)) Ha)
      as [F1 [F2 [F3 F4]]].
    rewrite somes_rev in F3, F4. fold (pend K c (syncEvents (pw (sync_pass w it)))) in F3, F4.
    rewrite Hq1, app_nil_r in F3, F4.
    destruct (f_status (flush (pw (sync_pass w it)) acts)) eqn:Est.
    + split; [exact F2|]. destruct (F4 eq_refl) as [[Fs [Fr [_ Fq]]]|Fsil].
      * exists lp. split; [left; split; [exact (Fr lp Hr1)|exact Fq]|].
        intros S HS. rewrite Fs.
        destruct Hdis as [[-> ->] | [_ [Hst ->]]]; cbn; [exact HS|rewrite Hst, HS; reflexivity].
      * destruct Hdis as [[-> Hp] | [_ [Hst Hp]]]; rewrite Hp in F3; cbn [rev app] in F3.
        -- destruct (prefix_single _ _ F3 (or_introl eq_refl)) as [E|E]; rewrite E;
             (exists last; split; [right; exact Fsil|intros S HS; exact HS]).
        -- destruct (prefix_single _ _ F3 (or_intror (ex_intro _ lp eq_refl))) as [E|E]; rewrite E.
           ++ exists last. split; [right; exact Fsil|intros S HS; exact HS].
           ++ exists lp. split; [right; exact Fsil|].
              intros S HS. cbn. rewrite Hst, HS. reflexivity.
    + contradiction.
    + destruct Hdis as [[-> Hp] | [_ [Hst Hp]]]; rewrite Hp in F3; cbn [rev app] in F3.
      * destruct (prefix_single _ _ F3 (or_introl eq_refl)) as [-> | ->]; reflexivity.
      * destruct (prefix_single _ _ F3 (or_intror (ex_intro _ lp eq_refl))) as [-> | ->];
          [reflexivity|cbn; rewrite Hst; reflexivity].
  - pose proof (sync_pass_silent K c w it Hs) as Hs1.
    destruct (silent_flush K c _ acts HK Hs1 Ha) as [G1 [G2 [G3 G4]]].
    destruct (f_status (flush (pw (sync_pass w it)) acts)); [| |rewrite G3; reflexivity];
      (split; [exact G1|exists last; split; [right; exact G4|intros S HS; rewrite G3; exact HS]]).
Qed.

Lemma loop_chain (K : watchKey) (c : chan) (evs : list lev) (w : Watcher) (its : list iterator)
    (acts : list fact) (last : Z) :
  key_id K <> None -> kstate K c last w ->
  forallb (lev_ok K c) evs = true -> forallb (fact_ok K c) acts = true ->
  revno_chain last (sent_revnos K c (r_trace (loop evs w its acts))) = true.
Proof.
  intro HK. revert w its acts last.
  induction evs as [|ev evs IH]; intros w its acts last Hst He Ha; cbn [loop];
    pose proof (top_chain K c last w its acts HK Hst Ha) as Ht;
    destruct (loop_top w its acts) as [e w1|w1 tr|w1 its1 acts1 tr]; try reflexivity; try exact Ht;
    destruct Ht as [Ha1 [lp [Hst1 Hc]]]; unfold prepend; cbn [r_trace]; rewrite sent_revnos_app;
    apply Hc.
  - reflexivity.
  - cbn [forallb] in He. apply andb_prop in He. destruct He as [He0 He].
    destruct ev as [|r|]; [| |reflexivity].
    + apply IH; [exact Hst1|exact He|exact Ha1].
    + cbn [lev_ok] in He0. apply negb_true_iff in He0.
      destruct (handle w1 r) as [[w2 rep]|] eqn:Hh; [|reflexivity].
      assert (Hst2 : kstate K c lp w2)
        by (destruct (handle_step K c w1 w2 r rep HK (kstate_tracked K c lp w1 Hst1) He0 Hh) as [F|S];
            [exact (kstate_kframe K c lp w1 w2 Hst1 F)|right; exact S]).
      destruct (flush_kstate K c lp w2 acts1 HK Hst2 Ha1) as [F1 [F2 [F3 F4]]].
      destruct (f_status (flush w2 acts1)) eqn:Est.
      * unfold prepend. cbn [r_trace]. rewrite sent_revnos_app. cbn [sent_revnos]. rewrite F3.
        apply IH; [exact (F4 eq_refl)|exact He|exact F2].
      * contradiction.
      * cbn [r_trace sent_revnos]. rewrite F3. reflexivity.
Qed.

(** C1 (amended): let [c] be registered once on the document key [K] with
    [lastDeliveredRevno = r0], not on [K]'s collection key, with nothing
    queued for it.  As long as no request the loop handles registers [c]
    again on [K] or on [K]'s collection key (requests for [c] on other
    keys, and an [Unwatch] of [(K, c)], are allowed) and the watcher is
    not killed in the middle of a flush, every revno the loop sends to [c]
    for [K] is greater than the previous one ([r0] for the first), or is
    -1 following a non-negative revno. *)
Theorem doc_watch_revnos (evs : list lev) (w : Watcher) (its : list iterator) (acts : list fact)
    (K : watchKey) (c : chan) (r0 : Z) :
  key_id K <> None -> reg_at K c r0 w = true -> quiet K c w = true ->
  forallb (lev_ok K c) evs = true -> forallb (fact_ok K c) acts = true ->
  revno_chain r0 (sent_revnos K c (r_trace (loop evs w its acts))) = true.
Proof.
  intros HK Hr Hq He Ha. apply loop_chain; [exact HK|left; split; assumption|exact He|exact Ha].
Qed.

Lemma doc_watch_revnos_witness :
  sent_revnos kM0 1%nat
    (r_trace (loop [LReq (ReqWatch (mkKey "machines"%string m1) (mkInfo 1%nat (-2) None));
                    LTimer; LTimer; LTimer] m0_watch m0_logs [])) = [3; -1; 7]
  /\ revno_chain (-2) (sent_revnos kM0 1%nat
       (r_trace (loop [LReq (ReqWatch (mkKey "machines"%string m1) (mkInfo 1%nat (-2) None));
                       LTimer; LTimer; LTimer] m0_watch m0_logs []))) = true.
Proof.
  split; [vm_compute; reflexivity|].
  apply (doc_watch_revnos [LReq (ReqWatch (mkKey "machines"%string m1) (mkInfo 1%nat (-2) None));
                           LTimer; LTimer; LTimer] m0_watch m0_logs [] kM0 1%nat (-2));
    [discriminate|vm_compute; reflexivity|vm_compute; reflexivity|vm_compute; reflexivity|reflexivity].
Defined.

(** C1 counterexample: the document watch on m0, registered with revno -2,
    is sent 3, then -1 when m0 is removed, then 7 when it is created again:
    an event for m0 follows the delivered -1 without a new registration. *)
Lemma doc_watch_after_delete :
  sent_revnos kM0 1%nat
    (r_trace (loop [LReq (ReqWatch kM0 (mkInfo 1%nat (-2) None)); LTimer; LTimer; LTimer]
                   empty_watcher m0_logs [])) = [3; -1; 7].
Proof. vm_compute. reflexivity. Qed.

(** ** Further properties of the watcher *)

Lemma ident_eqb_refl (a : ident) : ident_eqb a a = true.
Proof. apply ident_eqb_spec; reflexivity. Qed.

Lemma find_index_last {A} (p : A -> bool) (l : list A) (x : A) :
  existsb p l = false -> p x = true -> find_index p (l ++ [x]) = Some (length l).
Proof.
  induction l as [|y l IH]; cbn; intros H Hx; [rewrite Hx; reflexivity|].
  apply orb_false_iff in H as [Hy Hl]. rewrite Hy, (IH Hl Hx). reflexivity.
Qed.

Lemma swap_remove_last (l : list watchInfo) (x : watchInfo) :
  swap_remove (l ++ [x]) (length l) = l.
Proof.
  unfold swap_remove. rewrite last_last, list_set_app, removelast_last. reflexivity.
Qed.

Lemma handle_watch_unwatch (w w1 : Watcher) (k : watchKey) (info : watchInfo) (rep : reply) :
  handle w (ReqWatch k info) = Some (w1, rep) ->
  exists w2, handle w1 (ReqUnwatch k (ch info)) = Some (w2, NoReply) /\
             (forall k', watches w2 k' = watches w k').
Proof.
  cbn [handle]. destruct (existsb (has_ch (ch info)) (watches w k)) eqn:E; [discriminate|].
  intro H; inversion H; subst w1 rep; clear H.
  cbn [watches set_watches]. rewrite upd_same.
  rewrite (find_index_last _ _ _ E) by apply Nat.eqb_refl.
  eexists; split; [reflexivity|]. intro k'. cbn [watches].
  rewrite swap_remove_last. unfold upd.
  destruct (key_eqb k k') eqn:Ek; [apply key_eqb_spec in Ek; subst k'|]; reflexivity.
Qed.

Lemma status_prepend (tr : list titem) (r : rres) : r_status (prepend tr r) = r_status r.
Proof. reflexivity. Qed.

Lemma loop_top_stop (w w1 : Watcher) (its : list iterator) (acts : list fact) (e : goerr) :
  loop_top w its acts = TopStop e w1 ->
  e = ErrRestartAgent \/
  exists ie, is_capped ie = false /\ e = Trace (Annotate "watcher iteration error" (ErrIter ie)).
Proof.
  unfold loop_top. destruct (needSync w); [|discriminate].
  destruct (next_iter its) as [it its']. unfold sync.
  destruct (iclose it) as [ie|].
  - destruct (is_capped ie) eqn:Ec; cbn; intro H; inversion H; subst; [left|right]; eauto.
  - destruct (f_status (flush _ acts)); discriminate.
Qed.

Lemma loop_stop_cause (evs : list lev) (w : Watcher) (its : list iterator) (acts : list fact)
    (e : goerr) :
  r_status (loop evs w its acts) = RStopped e ->
  e = Trace ErrDying \/ e = ErrRestartAgent \/
  exists ie, is_capped ie = false /\ e = Trace (Annotate "watcher iteration error" (ErrIter ie)).
Proof.
  revert w its acts; induction evs as [|ev evs IH]; intros w its acts; cbn [loop];
    destruct (loop_top w its acts) as [e0 w1|w1 tr|w1 its1 acts1 tr] eqn:Et; cbn [r_status];
    intro H; try discriminate;
    try (inversion H; subst e0; right; apply (loop_top_stop _ _ _ _ _ Et)).
  rewrite status_prepend in H.
  destruct ev as [|r|]; cbn [r_status] in H.
  - exact (IH _ _ _ H).
  - destruct (handle w1 r) as [[w2 rep]|]; [|discriminate].
    destruct (f_status (flush w2 acts1)); cbn [r_status] in H; try discriminate;
      rewrite status_prepend in H; exact (IH _ _ _ H).
  - inversion H; left; reflexivity.
Qed.

Lemma queue_coll_keys (infos : list watchInfo) (k K : watchKey) (r : Z) :
  k <> K -> filter (fun e => key_eqb (ev_key e) K) (queue_coll infos k r) = [].
Proof.
  intro H. apply key_eqb_false in H.
  induction infos as [|info infos IH]; cbn; [reflexivity|].
  destruct (keep info (key_id k)); cbn; [rewrite H|]; exact IH.
Qed.

Lemma queue_doc_keys (infos : list watchInfo) (k K : watchKey) (r : Z) :
  k <> K -> filter (fun e => key_eqb (ev_key e) K) (snd (queue_doc infos k r)) = [].
Proof.
  intro H. apply key_eqb_false in H. rewrite queue_doc_eq; cbn [snd].
  induction (filter (fun info => doc_cond r (revno info)) infos) as [|info l IH];
    cbn; [reflexivity|rewrite H; exact IH].
Qed.

Lemma queue_frozen (w : Watcher) (k K : watchKey) (r : Z) :
  k <> K -> kevents K (queue w k r) = kevents K w /\ watches (queue w k r) K = watches w K.
Proof.
  intro H. unfold queue, kevents.
  pose proof (queue_doc_keys (watches w k) k K r H) as Hd.
  destruct (queue_doc (watches w k) k r) as [infos' docEvs]; cbn [snd] in Hd; cbn.
  rewrite !filter_app, (queue_coll_keys _ _ _ _ H), Hd, !app_nil_r.
  split; [reflexivity|apply upd_other, H].
Qed.

Lemma walk_frozen (K : watchKey) (name : string) (rows : list (ident * ident)) (p : pass) :
  In K (seen p) ->
  kevents K (pw (walk name rows p)) = kevents K (pw p) /\
  watches (pw (walk name rows p)) K = watches (pw p) K /\ In K (seen (walk name rows p)).
Proof.
  revert p; induction rows as [|[di ri] rows IH]; intros p Hin; cbn [walk]; [auto|].
  destruct (existsb (key_eqb (mkKey name di)) (seen p)) eqn:Es; [exact (IH p Hin)|].
  assert (Hne : mkKey name di <> K)
    by (intro Heq; rewrite Heq, (existsb_key_in K _ Hin) in Es; discriminate).
  destruct (revno_of ri) as [r0|].
  - destruct (IH (mkPass (queue (pw p) (mkKey name di) (normalize r0)) (mkKey name di :: seen p)
                         (cands p ++ [(mkKey name di, normalize r0)])) (or_intror Hin))
      as [H1 [H2 H3]].
    cbn [pw] in H1, H2. destruct (queue_frozen (pw p) _ K (normalize r0) Hne) as [Q1 Q2].
    rewrite H1, H2, Q1, Q2. auto.
  - apply (IH (mkPass (pw p) (mkKey name di :: seen p) (cands p)) (or_intror Hin)).
Qed.

Lemma walk_marks_seen (name : string) (di ri : ident) (rows : list (ident * ident)) (p : pass) :
  In (mkKey name di) (seen (walk name ((di, ri) :: rows) p)).
Proof.
  cbn [walk]. destruct (existsb (key_eqb (mkKey name di)) (seen p)) eqn:Es.
  - apply in_seen_existsb in Es. exact (proj2 (proj2 (walk_frozen _ name rows p Es))).
  - destruct (revno_of ri);
      refine (proj2 (proj2 (walk_frozen _ name rows _ _))); left; reflexivity.
Qed.

Lemma fold_frozen (K : watchKey) (bs : list (string * cval)) (p : pass) :
  In K (seen p) ->
  kevents K (pw (fold_left process_batch bs p)) = kevents K (pw p) /\
  watches (pw (fold_left process_batch bs p)) K = watches (pw p) K /\
  In K (seen (fold_left process_batch bs p)).
Proof.
  revert p; induction bs as [|[name cv] bs IH]; intros p Hin; cbn [fold_left]; [auto|].
  assert (Hb : In K (seen (process_batch p (name, cv))) /\
               kevents K (pw (process_batch p (name, cv))) = kevents K (pw p) /\
               watches (pw (process_batch p (name, cv))) K = watches (pw p) K).
  { unfold process_batch. destruct (parse_batch cv) as [d r].
    destruct (Nat.eqb (length d) 0 || negb (Nat.eqb (length d) (length r))); [auto|].
    destruct (walk_frozen K name (rev (combine d r)) p Hin) as [H1 [H2 H3]]. auto. }
  destruct Hb as [Hs [He Hw]].
  destruct (IH _ Hs) as [H1 [H2 H3]]. rewrite H1, H2, He, Hw. auto.
Qed.

Lemma entries_frozen (K : watchKey) (last0 : ident) (first : bool) (es : list entry) (p : pass) :
  In K (seen p) ->
  kevents K (pw (sync_entries last0 first es p)) = kevents K (pw p) /\
  watches (pw (sync_entries last0 first es p)) K = watches (pw p) K.
Proof.
  revert first p; induction es as [|e es IH]; intros first p Hin; cbn [sync_entries]; [auto|].
  set (p1 := if first then mkPass (set_lastId (pw p) (eid e)) (seen p) (cands p) else p).
  assert (Hp1 : In K (seen p1) /\ kevents K (pw p1) = kevents K (pw p) /\
                watches (pw p1) K = watches (pw p) K)
    by (subst p1; destruct first; auto).
  destruct Hp1 as [Hs [He Hw]].
  destruct (ident_eqb (eid e) last0); [auto|].
  destruct (fold_frozen K (ecolls e) p1 Hs) as [F1 [F2 F3]].
  destruct (IH false _ F3) as [I1 I2]. rewrite I1, I2, F1, F2. auto.
Qed.

Lemma walk_lastId (name : string) (rows : list (ident * ident)) (p : pass) :
  lastId (pw (walk name rows p)) = lastId (pw p).
Proof.
  revert p; induction rows as [|[di ri] rows IH]; intro p; cbn [walk]; [reflexivity|].
  destruct (existsb (key_eqb (mkKey name di)) (seen p)); [apply IH|].
  destruct (revno_of ri) as [r0|]; rewrite IH; [|reflexivity].
  unfold queue. destruct (queue_doc _ _ _); reflexivity.
Qed.

Lemma fold_lastId (bs : list (string * cval)) (p : pass) :
  lastId (pw (fold_left process_batch bs p)) = lastId (pw p).
Proof.
  revert p; induction bs as [|[name cv] bs IH]; intro p; cbn [fold_left]; [reflexivity|].
  rewrite IH. unfold process_batch. destruct (parse_batch cv) as [d r].
  destruct (_ || _); [reflexivity|apply walk_lastId].
Qed.

Lemma entries_lastId (last0 : ident) (es : list entry) (p : pass) :
  lastId (pw (sync_entries last0 false es p)) = lastId (pw p).
Proof.
  revert p; induction es as [|e es IH]; intro p; cbn [sync_entries]; [reflexivity|].
  destruct (ident_eqb (eid e) last0); [reflexivity|]. rewrite IH. apply fold_lastId.
Qed.

Lemma entries_stop (last0 : ident) (first : bool) (es1 es2 : list entry) (e : entry) (p : pass) :
  eid e = last0 -> (forall x, In x es1 -> eid x <> last0) ->
  sync_entries last0 first (es1 ++ e :: es2) p = sync_entries last0 first (es1 ++ [e]) p.
Proof.
  intros He; revert first p; induction es1 as [|x es1 IH]; intros first p Hx; cbn [app sync_entries].
  - rewrite He, ident_eqb_refl. reflexivity.
  - assert (Hne : ident_eqb (eid x) last0 = false).
    { destruct (ident_eqb (eid x) last0) eqn:E; [|reflexivity].
      apply ident_eqb_spec in E. exfalso; exact (Hx x (or_introl eq_refl) E). }
    rewrite Hne, IH; [reflexivity|]. intros y Hy; exact (Hx y (or_intror Hy)).
Qed.

(** X1: a [Watch] (or [WatchCollectionWithFilter]) request that is
    accepted, followed by the matching [Unwatch] (or [UnwatchCollection]),
    is accepted too and leaves every key's registrations as they were
    before the watch. *)
Theorem watch_unwatch_restores (w : Watcher) (collection : string) (id : ident) (c : chan)
    (f : option (ident -> bool)) :
  (forall rw w1 rep, Watch_req collection id c = Some rw -> handle w rw = Some (w1, rep) ->
     exists ru w2, Unwatch_req collection id c = Some ru /\ handle w1 ru = Some (w2, NoReply) /\
                   (forall k, watches w2 k = watches w k)) /\
  (forall w1 rep, handle w (WatchCollectionWithFilter_req collection c f) = Some (w1, rep) ->
     exists w2, handle w1 (UnwatchCollection_req collection c) = Some (w2, NoReply) /\
                (forall k, watches w2 k = watches w k)).
Proof.
  split.
  - intros rw w1 rep Hw Hh. destruct id as [v|]; cbn in Hw; [|discriminate].
    inversion Hw; subst rw.
    destruct (handle_watch_unwatch _ _ _ _ _ Hh) as [w2 [H1 H2]].
    exists (ReqUnwatch (mkKey collection (Some v)) c), w2. auto.
  - intros w1 rep Hh. exact (handle_watch_unwatch _ _ _ _ _ Hh).
Qed.

Lemma watch_unwatch_restores_witness :
  exists ru w2, Unwatch_req "machines"%string m0 1%nat = Some ru /\
                handle m0_watch ru = Some (w2, NoReply) /\
                (forall k, watches w2 k = watches empty_watcher k).
Proof.
  apply (proj1 (watch_unwatch_restores empty_watcher "machines"%string m0 1%nat None)
           (ReqWatch kM0 (mkInfo 1%nat (-2) None))
           (set_watches empty_watcher
              (upd (watches empty_watcher) kM0 (watches empty_watcher kM0 ++ [mkInfo 1%nat (-2) None])))
           ReplyNil); reflexivity.
Defined.

(** X3: an accepted [Unwatch] request of channel [c] on key [k] removes
    exactly one registration with channel [c] from [k]'s registrations
    (the others are kept, in some order), leaves every other key's
    registrations, [needSync] and [lastId] unchanged, and sends no reply. *)
Theorem unwatch_removes_one (w w' : Watcher) (k : watchKey) (c : chan) (rep : reply) :
  handle w (ReqUnwatch k c) = Some (w', rep) ->
  rep = NoReply /\
  (exists x, ch x = c /\ Permutation (x :: watches w' k) (watches w k)) /\
  (forall k', k' <> k -> watches w' k' = watches w k') /\
  needSync w' = needSync w /\ lastId w' = lastId w.
Proof.
  cbn [handle]. destruct (find_index (has_ch c) (watches w k)) as [i|] eqn:Ei; [|discriminate].
  intro H; inversion H; subst w' rep; clear H. cbn [watches needSync lastId].
  destruct (find_index_split _ _ _ Ei) as [a [x [b [Hl [Hi Hx]]]]].
  split; [reflexivity|]. split; [|split; [|auto]].
  - exists x. split; [apply Nat.eqb_eq, Hx|].
    rewrite upd_same, Hl, <- Hi.
    eapply perm_trans; [apply perm_skip, swap_remove_perm|].
    apply Permutation_middle.
  - intros k' Hk. apply upd_other. intro E; apply Hk; symmetry; exact E.
Qed.

Lemma unwatch_removes_one_witness :
  exists w' rep, handle m0_two_watch (ReqUnwatch kM0 1%nat) = Some (w', rep) /\
  rep = NoReply /\
  (exists x, ch x = 1%nat /\ Permutation (x :: watches w' kM0) (watches m0_two_watch kM0)) /\
  (forall k', k' <> kM0 -> watches w' k' = watches m0_two_watch k') /\
  needSync w' = needSync m0_two_watch /\ lastId w' = lastId m0_two_watch.
Proof.
  destruct (handle m0_two_watch (ReqUnwatch kM0 1%nat)) as [[w' rep]|] eqn:E.
  - exists w', rep. split; [reflexivity|]. exact (unwatch_removes_one _ _ _ _ _ E).
  - vm_compute in E. discriminate.
Defined.

(** X5: a sync pass stops at the first log entry whose id is the cursor
    [lastId] read at the start of the pass: whatever follows that entry in
    the log has no effect on the pass. *)
Theorem sync_stops_at_lastId (w : Watcher) (es1 es2 : list entry) (e : entry)
    (cl : option iterErr) :
  eid e = lastId w -> (forall x, In x es1 -> eid x <> lastId w) ->
  sync_pass w (mkIter (es1 ++ e :: es2) cl) = sync_pass w (mkIter (es1 ++ [e]) cl).
Proof.
  intros He Hx. unfold sync_pass; cbn [ientries]. apply entries_stop; assumption.
Qed.

Lemma sync_stops_at_lastId_witness :
  sync_pass (set_lastId m0_watch (Some (VInt64 1)))
    (mkIter ([entry1 2 "machines"%string [m0] [5]] ++ entry1 1 "machines"%string [m0] [3]
               :: [entry1 0 "machines"%string [m1] [1]]) None) =
  sync_pass (set_lastId m0_watch (Some (VInt64 1)))
    (mkIter ([entry1 2 "machines"%string [m0] [5]] ++ [entry1 1 "machines"%string [m0] [3]]) None).
Proof.
  apply sync_stops_at_lastId; [reflexivity|].
  intros x [<-|[]]. discriminate.
Defined.

(** X6: after a sync pass the cursor [lastId] is the id of the newest log
    entry read (unchanged if the log was empty), and a second pass over the
    same log queues no further events and changes no registration. *)
Theorem sync_twice_no_new_events (w : Watcher) (it : iterator) :
  let w1 := pw (sync_pass w it) in
  lastId w1 = match ientries it with e :: _ => eid e | [] => lastId w end /\
  syncEvents (pw (sync_pass w1 it)) = syncEvents w1 /\
  (forall k, watches (pw (sync_pass w1 it)) k = watches w1 k) /\
  lastId (pw (sync_pass w1 it)) = lastId w1.
Proof.
  intro w1.
  assert (Hl : lastId w1 = match ientries it with e :: _ => eid e | [] => lastId w end).
  { subst w1. unfold sync_pass. destruct (ientries it) as [|e es]; cbn [sync_entries]; [reflexivity|].
    destruct (ident_eqb (eid e) (lastId w)); [reflexivity|].
    rewrite entries_lastId, fold_lastId. reflexivity. }
  split; [exact Hl|].
  unfold sync_pass at 1 2 3. destruct (ientries it) as [|e es] eqn:Ei; cbn [sync_entries].
  - auto.
  - rewrite Hl, ident_eqb_refl. cbn. auto.
Qed.

(** X7: when the watcher's loop, started with [initLastId], stops, the
    cause is one of four: the tomb is dying (Wait returns nil); the log's
    position was lost during a sync (ErrRestartAgent); another iterator
    error during a sync (Wait returns it); or a failure of [initLastId]'s
    query, which is returned as is even when it is a capped-position loss. *)
Theorem loop_start_stop_causes (w : Watcher) (r : findResult) (evs : list lev)
    (its : list iterator) (acts : list fact) (e : goerr) :
  r_status (loop_start w r evs its acts) = RStopped e ->
  (e = Trace ErrDying /\ wait_result e = None) \/
  (e = ErrRestartAgent /\ wait_result e = Some ErrRestartAgent) \/
  (exists ie, is_capped ie = false /\
              e = Trace (Annotate "watcher iteration error" (ErrIter ie)) /\
              wait_result e = Some (ErrIter ie)) \/
  (exists ie, r = FindErr ie /\ e = Trace (Trace (ErrIter ie)) /\
              wait_result e = Some (ErrIter ie)).
Proof.
  unfold loop_start. destruct r as [id| |ie]; cbn [initLastId].
  - intro H. destruct (loop_stop_cause _ _ _ _ _ H) as [->|[->|[ie [Hc ->]]]]; auto.
    right; right; left. exists ie. auto.
  - intro H. destruct (loop_stop_cause _ _ _ _ _ H) as [->|[->|[ie [Hc ->]]]]; auto.
    right; right; left. exists ie. auto.
  - cbn. intro H; inversion H; subst. right; right; right. exists ie. auto.
Qed.

Lemma loop_start_stop_causes_witness :
  let e := Trace (Trace (ErrIter (QueryError 136 "CappedPositionLost"%string))) in
  (e = Trace ErrDying /\ wait_result e = None) \/
  (e = ErrRestartAgent /\ wait_result e = Some ErrRestartAgent) \/
  (exists ie, is_capped ie = false /\
              e = Trace (Annotate "watcher iteration error" (ErrIter ie)) /\
              wait_result e = Some (ErrIter ie)) \/
  (exists ie, FindErr (QueryError 136 "CappedPositionLost"%string) = FindErr ie /\
              e = Trace (Trace (ErrIter ie)) /\ wait_result e = Some (ErrIter ie)).
Proof.
  apply (loop_start_stop_causes empty_watcher (FindErr (QueryError 136 "CappedPositionLost"%string))
           [LTimer] [] []).
  reflexivity.
Defined.

(** X8: within one sync pass, a document key that has been seen (marked
    by its newest row in the pass, even when that row's revno is not an
    int64) gets no further events queued and keeps its registrations for
    the rest of the pass, whatever the remaining rows and entries hold. *)
Theorem seen_key_frozen (K : watchKey) :
  (forall name di ri rows p, In (mkKey name di) (seen (walk name ((di, ri) :: rows) p))) /\
  (forall name rows p, In K (seen p) ->
     kevents K (pw (walk name rows p)) = kevents K (pw p) /\
     watches (pw (walk name rows p)) K = watches (pw p) K) /\
  (forall last0 first es p, In K (seen p) ->
     kevents K (pw (sync_entries last0 first es p)) = kevents K (pw p) /\
     watches (pw (sync_entries last0 first es p)) K = watches (pw p) K).
Proof.
  split; [exact walk_marks_seen|split].
  - intros name rows p Hin. destruct (walk_frozen K name rows p Hin) as [H1 [H2 _]]. auto.
  - intros last0 first es p Hin. exact (entries_frozen K last0 first es p Hin).
Qed.

Lemma seen_key_frozen_witness :
  kevents kM0 (pw (walk "machines"%string [(m0, Some (VInt64 4))]
                       (mkPass m0_watch [kM0] []))) = kevents kM0 m0_watch /\
  watches (pw (walk "machines"%string [(m0, Some (VInt64 4))] (mkPass m0_watch [kM0] []))) kM0
  = watches m0_watch kM0.
Proof.
  apply (proj1 (proj2 (seen_key_frozen kM0))). left; reflexivity.
Defined.

Lemma sync_frame_refl (w : Watcher) : sync_frame w w.
Proof. split; [exists []; rewrite app_nil_r; reflexivity|split; [reflexivity|auto]]. Qed.

Lemma sync_frame_trans (w1 w2 w3 : Watcher) :
  sync_frame w1 w2 -> sync_frame w2 w3 -> sync_frame w1 w3.
Proof.
  intros [[l1 E1] [R1 K1]] [[l2 E2] [R2 K2]]. split; [|split].
  - exists (l1 ++ l2). rewrite E2, E1, app_assoc. reflexivity.
  - congruence.
  - intro k. destruct (K1 k), (K2 k). split; congruence.
Qed.

Lemma queue_frame (w : Watcher) (key : watchKey) (r : Z) :
  sync_frame w (queue w key r) /\ needSync (queue w key r) = needSync w.
Proof.
  unfold queue. rewrite queue_doc_eq. cbn. split; [|reflexivity]. split; [|split].
  - eexists; reflexivity.
  - reflexivity.
  - intro k. cbn [watches]. unfold upd. destruct (key_eqb key k) eqn:E; [|auto].
    apply key_eqb_spec in E; subst k.
    split; rewrite map_map; apply map_ext; intro info; destruct (doc_cond r (revno info)); reflexivity.
Qed.

Lemma walk_frame (name : string) (rows : list (ident * ident)) (p : pass) :
  sync_frame (pw p) (pw (walk name rows p)) /\ needSync (pw (walk name rows p)) = needSync (pw p).
Proof.
  revert p; induction rows as [|[di ri] rows IH]; intro p; cbn [walk].
  - split; [apply sync_frame_refl|reflexivity].
  - destruct (existsb (key_eqb (mkKey name di)) (seen p)); [apply IH|].
    destruct (revno_of ri) as [r0|]; [|exact (IH (mkPass (pw p) (mkKey name di :: seen p) (cands p)))].
    destruct (IH (mkPass (queue (pw p) (mkKey name di) (normalize r0)) (mkKey name di :: seen p)
                         (cands p ++ [(mkKey name di, normalize r0)]))) as [F N].
    cbn [pw] in F, N. destruct (queue_frame (pw p) (mkKey name di) (normalize r0)) as [Q QN].
    split; [exact (sync_frame_trans _ _ _ Q F)|congruence].
Qed.

Lemma fold_frame (bs : list (string * cval)) (p : pass) :
  sync_frame (pw p) (pw (fold_left process_batch bs p)) /\
  needSync (pw (fold_left process_batch bs p)) = needSync (pw p).
Proof.
  revert p; induction bs as [|[name cv] bs IH]; intro p; cbn [fold_left].
  - split; [apply sync_frame_refl|reflexivity].
  - destruct (IH (process_batch p (name, cv))) as [F N].
    assert (Hb : sync_frame (pw p) (pw (process_batch p (name, cv))) /\
                 needSync (pw (process_batch p (name, cv))) = needSync (pw p)).
    { unfold process_batch. destruct (parse_batch cv) as [d r].
      destruct (_ || _); [split; [apply sync_frame_refl|reflexivity]|apply walk_frame]. }
    destruct Hb as [Fb Nb]. split; [exact (sync_frame_trans _ _ _ Fb F)|congruence].
Qed.

Lemma sync_frame_lastId (w : Watcher) (i : ident) : sync_frame w (set_lastId w i).
Proof. exact (sync_frame_refl w). Qed.

Lemma entries_frame (last0 : ident) (first : bool) (es : list entry) (p : pass) :
  sync_frame (pw p) (pw (sync_entries last0 first es p)) /\
  needSync (pw (sync_entries last0 first es p)) = needSync (pw p).
Proof.
  revert first p; induction es as [|e es IH]; intros first p; cbn [sync_entries].
  - split; [apply sync_frame_refl|reflexivity].
  - set (p1 := if first then mkPass (set_lastId (pw p) (eid e)) (seen p) (cands p) else p).
    assert (H1 : sync_frame (pw p) (pw p1) /\ needSync (pw p1) = needSync (pw p))
      by (subst p1; destruct first; (split; [|reflexivity]); [apply sync_frame_lastId|apply sync_frame_refl]).
    destruct H1 as [F1 N1].
    destruct (ident_eqb (eid e) last0); [auto|].
    destruct (fold_frame (ecolls e) p1) as [F2 N2].
    destruct (IH false (fold_left process_batch (ecolls e) p1)) as [F3 N3].
    split; [exact (sync_frame_trans _ _ _ F1 (sync_frame_trans _ _ _ F2 F3))|congruence].
Qed.

(** X9: [sync] only appends events to the sync queue; it leaves the
    request queue unchanged, never adds or removes a registration nor
    changes its channel or filter, and clears [needSync]. *)
Theorem sync_only_appends (w : Watcher) (it : iterator) :
  sync_frame w (fst (sync w it)) /\ needSync (fst (sync w it)) = false.
Proof.
  unfold sync, sync_pass; cbn [fst].
  destruct (entries_frame (lastId w) true (ientries it) (mkPass (set_needSync w false) [] []))
    as [F N].
  cbn [pw] in F, N. split; [|exact N].
  exact (sync_frame_trans w (set_needSync w false) _ (sync_frame_refl w) F).
Qed.
